(** * yakwith.ai voice chat API: a shallow embedding and its properties

    The development follows the two source files

    - [voice_chat/data_classes/mongodb_helper.py] (module [MongoHelper]),
    - [voice_chat/chat_api.py]                    (module [ChatApi]),

    with the collaborators that live elsewhere in the repository
    ([yak_agents.py], [service/azure_TTS.py], [data_classes/data_models.py],
    [data_classes/chat_data_classes.py]) either taken as parameters or
    modelled from the specification; each such definition says so.

    Python exceptions are values of [PyExn]; a call that may raise returns a
    [Result].  Mutable objects shared between a request handler and a
    streaming generator live in an explicit heap. *)

From Stdlib Require Import ZArith.
From stdpp Require Import base option list strings gmap fin_maps sorting.

Open Scope string_scope.
Open Scope list_scope.

(** ** Python exceptions and results *)

Inductive PyExn : Type :=
| RuntimeError (msg : string)
| KeyError (key : string)
| AttributeError (obj attr : string)
| UnboundLocalError (var : string)
| NameError (var : string)
| TypeError (msg : string)
| ValueError (msg : string)
| IndexError (msg : string)
| NotImplementedError (msg : string)
| SystemError (msg : string)
| BackendError (msg : string).

#[global] Instance PyExn_eq_dec : EqDecision PyExn.
Proof. solve_decision. Defined.

(** Python's [UnboundLocalError] is a subclass of [NameError]. *)
Definition is_NameError (e : PyExn) : bool :=
  match e with
  | UnboundLocalError _ | NameError _ => true
  | _ => false
  end.

Inductive Result (A : Type) : Type :=
| Returns (a : A)
| Raises (e : PyExn).
Arguments Returns {A} a.
Arguments Raises {A} e.

#[global] Instance Result_ret : MRet Result := @Returns.
#[global] Instance Result_bind : MBind Result :=
  λ A B f m, match m with Returns a => f a | Raises e => Raises e end.
#[global] Instance Result_fmap : FMap Result :=
  λ A B f m, match m with Returns a => Returns (f a) | Raises e => Raises e end.

(** [for x in l: f x], stopping at the first exception. *)
Fixpoint mapR {A B} (f : A → Result B) (l : list A) : Result (list B) :=
  match l with
  | [] => Returns []
  | x :: l' => y ← f x; ys ← mapR f l'; Returns (y :: ys)
  end.

(** Attribute access on [None]. *)
Definition NoneType_has_no (attr : string) : PyExn := AttributeError "NoneType" attr.

(** Values found in the loosely typed [Menu.collection] dictionary. *)
Inductive PyVal : Type :=
| PInt (z : Z)
| PStr (s : string).

#[global] Instance PyVal_eq_dec : EqDecision PyVal.
Proof. solve_decision. Defined.

(** ** Python text

    A Python [str] is a sequence of characters (code points).  The strings
    of this development hold the UTF-8 encoding of the text: a byte of the
    form [10xxxxxx] continues the character begun before it, every other
    byte begins a character. *)
Definition is_continuation (a : Ascii.ascii) : bool :=
  match a with
  | Ascii.Ascii _ _ _ _ _ _ b6 b7 => b7 && negb b6
  end.

(** [len(s)]: the number of characters. *)
Fixpoint py_len (s : string) : nat :=
  match s with
  | EmptyString => 0%nat
  | String a s' => if is_continuation a then py_len s' else S (py_len s')
  end.

(** [for c in s]: the characters of [s], each a string of its own. *)
Fixpoint chars (s : string) : list string :=
  match s with
  | EmptyString => []
  | String a s' =>
      match s' with
      | EmptyString => [String a EmptyString]
      | String b _ =>
          if is_continuation b then
            match chars s' with
            | c :: cs => String a c :: cs
            | [] => [String a EmptyString]
            end
          else String a EmptyString :: chars s'
      end
  end.

(** ** Collaborators taken as parameters

    What the two files call but do not define, and whose results no property
    below depends on beyond their being results: Python's [int] on strings,
    [json.dumps], the Azure text-to-speech calls of [service/azure_TTS.py]
    (which block on the backend and may raise), and the configured default
    voice. *)

Definition Audio : Type := string.
Definition Visemes : Type := list (Z * Z).

Class Runtime : Type := {
  int_of_str : string → option Z;
  json_dumps_str : string → string;
  json_dumps_visemes : Visemes → string;
  (* [AzureTextToSpeech(voice_id).audio_stream_generator(phrase).audio_data];
     the backend may answer differently from one call to the next, so the
     first argument counts the calls a stream has made *)
  audio_stream_generator : nat → string → string → Result Audio;
  (* [AzureTTSViseme(voice_id).audio_viseme_generator(phrase)] *)
  audio_viseme_generator : nat → string → string → Result (Audio * Visemes);
  (* [app_config.text_to_speech.default_voice_id] *)
  default_voice_id : string
}.

(** * mongodb_helper.py *)

Module MongoHelper.

(** [data_models.Menu] and [data_models.Cafe]: the declarations are not part
    of the two files; the fields are those the helper reads and writes. *)
Record Menu : Type := mkMenu {
  menu_id : string;
  collection : gmap string PyVal;
  menu_text : string
}.

Record Cafe : Type := mkCafe {
  business_uid : string;
  menus : list Menu;
  (* a dict, or a JSON string that denotes one; [None] when the string
     does not parse *)
  avatar_settings : option (gmap string string)
}.

(** [DatabaseConfig.cafes]: the documents of the cafes collection, in
    storage order. *)
Record DatabaseConfig : Type := mkDb { cafes : list Cafe }.

Definition set_menu_text (v : string) (m : Menu) : Menu :=
  {| menu_id := menu_id m; collection := collection m; menu_text := v |}.

Definition set_menus (ms : list Menu) (c : Cafe) : Cafe :=
  {| business_uid := business_uid c; menus := ms;
     avatar_settings := avatar_settings c |}.

Section Helper.

Context `{Runtime}.

Definition py_int (v : PyVal) : Result Z :=
  match v with
  | PInt z => Returns z
  | PStr s =>
      match int_of_str s with
      | Some z => Returns z
      | None => Raises (ValueError "invalid literal for int()")
      end
  end.

(** [d[k]] on a dict. *)
Definition getitem (d : gmap string PyVal) (k : string) : Result PyVal :=
  match d !! k with
  | Some v => Returns v
  | None => Raises (KeyError k)
  end.

Definition has_menu (mid : string) (c : Cafe) : bool :=
  existsb (λ m, bool_decide (menu_id m = mid)) (menus c).

(** [db.cafes.find_one({"business_uid": uid} | addition_criteria)], where
    the only additional criterion in use is [{"menus.menu_id": mid}]. *)
Definition matches (uid : string) (addition_criteria : option string)
    (c : Cafe) : bool :=
  bool_decide (business_uid c = uid) &&
  match addition_criteria with
  | None => true
  | Some mid => has_menu mid c
  end.

Definition find_one (db : DatabaseConfig) (uid : string)
    (addition_criteria : option string) : option Cafe :=
  find (matches uid addition_criteria) (cafes db).

(** [get_cafe]: any exception (for instance [Cafe.from_dict(None)]) is
    logged and [None] is returned. *)
Definition get_cafe (db : DatabaseConfig) (uid : string)
    (addition_criteria : option string) : option Cafe :=
  find_one db uid addition_criteria.

(** [get_one_menu]: the first menu with that id, [None] on any exception. *)
Definition get_one_menu (db : DatabaseConfig) (uid mid : string)
    : option Menu :=
  match get_cafe db uid (Some mid) with
  | None => None
  | Some cafe => find (λ m, bool_decide (menu_id m = mid)) (menus cafe)
  end.

(** [db.cafes.update_one({"business_uid": uid}, {"$set": {"menus": ms}})]:
    the first matching document is updated. *)
Fixpoint update_first (uid : string) (ms : list Menu) (cs : list Cafe)
    : list Cafe :=
  match cs with
  | [] => []
  | c :: cs' =>
      if bool_decide (business_uid c = uid)
      then set_menus ms c :: cs'
      else c :: update_first uid ms cs'
  end.

Definition update_one (db : DatabaseConfig) (uid : string)
    (ms : list Menu) : DatabaseConfig :=
  {| cafes := update_first uid ms (cafes db) |}.

(** The [robust_filter] local to [get_menu_list]. *)
Definition display_filter (x : Menu) : Result bool :=
  match collection x !! "sequence_number" with
  | Some v => z ← py_int v; Returns (bool_decide (z = 0%Z))
  | None => Returns true
  end.

(** [filter(pred, l)] for a predicate that may raise. *)
Fixpoint filterR {A} (f : A → Result bool) (l : list A) : Result (list A) :=
  match l with
  | [] => Returns []
  | x :: l' =>
      b ← f x; r ← filterR f l';
      Returns (if b : bool then x :: r else r)
  end.

(** [get_menu_list]: [ret] is assigned [cafe.menus] before the filter
    runs, so an exception inside the filter leaves the unfiltered list. *)
Definition get_menu_list (db : DatabaseConfig) (uid : string)
    (for_display : bool) : list Menu :=
  match get_cafe db uid None with
  | None => []                       (* cafe.menus on None, caught *)
  | Some cafe =>
      let ret := menus cafe in
      if for_display then
        match filterR display_filter ret with
        | Returns r => r
        | Raises _ => ret
        end
      else ret
  end.

(** [update_menu_field] with [field = "menu_text"], which every [Menu]
    has: returns [(ok, msg)] and the database after the call. *)
Fixpoint set_first_text (mid v : string) (ms : list Menu)
    : option (list Menu) :=
  match ms with
  | [] => None
  | m :: ms' =>
      if bool_decide (menu_id m = mid)
      then Some (set_menu_text v m :: ms')
      else cons m <$> set_first_text mid v ms'
  end.

(* the formatted text of the message is not modelled *)
Definition update_failed_msg : string := "Failed to update menu".

Definition update_menu_field (db : DatabaseConfig) (uid mid v : string)
    : DatabaseConfig * (bool * string) :=
  match get_cafe db uid (Some mid) with
  | None => (db, (false, update_failed_msg))   (* cafe.menus on None, caught *)
  | Some cafe =>
      match set_first_text mid v (menus cafe) with
      | Some ms => (update_one db (business_uid cafe) ms, (true, ""))
      | None => (db, (true, ""))               (* not updated: logged only *)
      end
  end.

(** ["grp_id" in menu.collection and menu.collection["grp_id"] == grp_id] *)
Definition in_group (grp_id : string) (m : Menu) : bool :=
  match collection m !! "grp_id" with
  | Some v => bool_decide (v = PStr grp_id)
  | None => false
  end.

Definition truthy (s : string) : bool := negb (bool_decide (s = "")).

(** [count_menus_in_collection].  The local [menus] is bound only inside
    the [if]; [None] stands for the unbound local. *)
Definition count_menus_in_collection (db : DatabaseConfig)
    (uid grp_id : string) : Result nat :=
  if truthy grp_id && bool_decide (py_len grp_id ≤ 10)%nat then
    Returns 0%nat
  else
    match get_cafe db uid None with
    | None => Raises (NoneType_has_no "menus")
    | Some cafe =>
        let local_menus : option (list Menu) :=
          if bool_decide (0 < length (menus cafe))%nat
          then Some (filter (λ m, in_group grp_id m = true) (menus cafe))
          else None in
        match local_menus with
        | Some ms => Returns (length ms)
        | None => Raises (UnboundLocalError "menus")
        end
    end.

(** [sorted(menus, key=lambda x: int(x.collection["sequence_number"]))]:
    the keys are computed first, in list order; the sort is stable. *)
Definition sequence_key (x : Menu) : Result Z :=
  v ← getitem (collection x) "sequence_number"; py_int v.

Fixpoint insert_by_key (k : Z) (x : Menu) (l : list (Z * Menu))
    : list (Z * Menu) :=
  match l with
  | [] => [(k, x)]
  | (k', y) :: l' =>
      if bool_decide (k < k')%Z then (k, x) :: l
      else (k', y) :: insert_by_key k x l'
  end.

Definition sort_keyed (l : list (Z * Menu)) : list (Z * Menu) :=
  foldl (λ acc p, insert_by_key p.1 p.2 acc) [] l.

Definition sorted_by_sequence (ms : list Menu) : Result (list Menu) :=
  ks ← mapR (λ x, k ← sequence_key x; Returns (k, x)) ms;
  Returns (snd <$> sort_keyed ks).

Definition no_business_msg : string := "No business found".

(** The menus [collate_text] keeps after its own [robust_filter]. *)
Definition group_of (db : DatabaseConfig) (uid grp_id : string) : list Menu :=
  filter (λ m, in_group grp_id m = true) (get_menu_list db uid true).

(** [sorted_menus[0].menu_id] when there is one, else the initial [""]. *)
Definition primary_of (sorted_menus : list Menu) : string :=
  match sorted_menus with
  | m :: _ => menu_id m
  | [] => ""
  end.

(** [collate_text]: the result tuple [(ok, msg, count, primary_menu_id)]
    and the database after the call. *)
Definition collate_text (db : DatabaseConfig) (uid grp_id : string)
    : Result (DatabaseConfig * (bool * string * nat * string)) :=
  let menus0 := get_menu_list db uid true in
  if bool_decide (length menus0 = 0%nat) then
    Returns (db, (false, no_business_msg, 0%nat, ""))
  else
    let menus1 := group_of db uid grp_id in
    sorted_menus ← sorted_by_sequence menus1;
    let primary_menu_id := primary_of sorted_menus in
    let all_text := String.concat "" (menu_text <$> sorted_menus) in
    let count := length menus1 in
    let '(db', (ok, msg)) := update_menu_field db uid primary_menu_id all_text in
    if ok then Returns (db', (true, msg, count, primary_menu_id))
    else Returns (db', (true, msg, 0%nat, "")).

End Helper.

(** ** Writers of the cafes collection *)

(** [db.cafes.insert_one(doc)]: the document goes to the end of the
    collection. *)
Definition insert_one (db : DatabaseConfig) (c : Cafe) : DatabaseConfig :=
  {| cafes := cafes db ++ [c] |}.

(** [db.cafes.update_one({"business_uid": uid}, {"$set": cafe.to_dict()})]:
    every field of the first matching document is set; [None] when no
    document matches. *)
Fixpoint set_first (uid : string) (c' : Cafe) (cs : list Cafe)
    : option (list Cafe) :=
  match cs with
  | [] => None
  | c :: cs' =>
      if bool_decide (business_uid c = uid)
      then Some (c' :: cs')
      else cons c <$> set_first uid c' cs'
  end.

(** With [upsert=True] a document is inserted when none matches; it takes
    the fields of the [$set], which override those of the filter. *)
Definition update_one_doc (db : DatabaseConfig) (uid : string) (c' : Cafe)
    (upsert : bool) : DatabaseConfig :=
  match set_first uid c' (cafes db) with
  | Some cs => {| cafes := cs |}
  | None => if upsert then insert_one db c' else db
  end.

Section Writers.

(** The value the constructor [Cafe(business_uid=.., menus=..)] gives the
    avatar settings; [data_models.py] is not among the files. *)
Variable default_avatar_settings : option (gmap string string).

(** [save_menu].  [Menu.from_dict(new_menu.to_dict())] is taken to copy the
    menu. *)
Definition save_menu (db : DatabaseConfig) (uid : string) (new_menu : Menu)
    : DatabaseConfig * (bool * string) :=
  match get_cafe db uid None with
  | Some cafe =>
      (update_one_doc db uid (set_menus (menus cafe ++ [new_menu]) cafe) false,
       (true, ""))
  | None =>
      (insert_one db (mkCafe uid [new_menu] default_avatar_settings), (true, ""))
  end.

End Writers.

(* the formatted text of the message is not modelled *)
Definition delete_failed_msg : string := "Erorr: Failed to delete menu".

(** [delete_one_menu]: when no cafe of the business holds the menu,
    [Cafe.from_dict(None)] raises or the [else] branch reads the unbound
    [e]; either way the [except] clause answers [(False, msg)]. *)
Definition delete_one_menu (db : DatabaseConfig) (uid mid : string)
    : DatabaseConfig * (bool * string) :=
  match find_one db uid (Some mid) with
  | Some cafe =>
      (update_one db (business_uid cafe)
         (filter (λ m, menu_id m ≠ mid) (menus cafe)),
       (true, ""))
  | None => (db, (false, delete_failed_msg))
  end.

(** [skip_fields is None or not (key in skip_fields)], negated. *)
Definition skipped (skip_fields : option (list string)) (key : string) : bool :=
  match skip_fields with
  | None => false
  | Some l => bool_decide (key ∈ l)
  end.

(** [upsert_cafe_settings]; the default of [skip_fields] is
    [Some ["menus"]]. *)
Definition upsert_cafe_settings (db : DatabaseConfig) (uid : string)
    (updated_partial_cafe : Cafe) (skip_fields : option (list string))
    : DatabaseConfig * (bool * string) :=
  let cafe :=
    match get_cafe db uid None with
    | None => updated_partial_cafe
    | Some cafe =>
        {| business_uid :=
             if skipped skip_fields "business_uid" then business_uid cafe
             else business_uid updated_partial_cafe;
           menus :=
             if skipped skip_fields "menus" then menus cafe
             else menus updated_partial_cafe;
           avatar_settings :=
             if skipped skip_fields "avatar_settings" then avatar_settings cafe
             else avatar_settings updated_partial_cafe |}
    end in
  (update_one_doc db uid cafe true, (true, "")).

(** The business has exactly one document in the collection. *)
Definition one_document (db : DatabaseConfig) (uid : string) (c : Cafe) : Prop :=
  ∃ pre post,
    cafes db = pre ++ c :: post
    ∧ business_uid c = uid
    ∧ (∀ x, x ∈ pre ++ post → business_uid x ≠ uid).

(** ** [parse_dict] *)

Section ParseDict.

Context {V : Type}.

(** [json.loads] on a text that denotes an object; [None] when it raises.
    Texts that denote something other than an object are not considered. *)
Variable json_loads : string → option (gmap string V).

(** The [target] argument, a [str] or a [dict], and the [keys] argument,
    [None], a single [str] or a [list]. *)
Inductive Target : Type :=
| TStr (s : string)
| TDict (d : gmap string V).

Inductive Keys : Type :=
| KNone
| KStr (s : string)
| KList (l : list string).

Definition not_iterable : PyExn :=
  TypeError "argument of type 'NoneType' is not iterable".

Definition str_indices : PyExn :=
  TypeError "string indices must be integers".

(** The loop when [drop_keys] is false: [ret[key] = target[key]] for the
    keys found in [_target]; note that it indexes [target], not
    [_target]. *)
Fixpoint pick (target : Target) (_target : option (gmap string V))
    (keys : list string) (ret : gmap string V) : Result (gmap string V) :=
  match keys with
  | [] => Returns ret
  | key :: keys' =>
      match _target with
      | None => Raises not_iterable
      | Some t =>
          match t !! key with
          | None => pick target _target keys' ret
          | Some _ =>
              match target with
              | TStr _ => Raises str_indices
              | TDict d =>
                  match d !! key with
                  | Some v => pick target _target keys' (<[key := v]> ret)
                  | None => Raises (KeyError key)
                  end
              end
          end
      end
  end.

(** The loop when [drop_keys] is true: [ret] and [_target] are one object,
    from which the keys found are deleted. *)
Fixpoint drop_found (keys : list string) (t : option (gmap string V))
    : Result (option (gmap string V)) :=
  match keys with
  | [] => Returns t
  | key :: keys' =>
      match t with
      | None => Raises not_iterable
      | Some d =>
          match d !! key with
          | Some _ => drop_found keys' (Some (delete key d))
          | None => drop_found keys' t
          end
      end
  end.

(** [parse_dict]: the value returned and the caller's [target] after the
    call (a [dict] passed with [drop_keys] is modified in place). *)
Definition parse_dict (target : Target) (keys : Keys) (drop_keys : bool)
    : Result (option (gmap string V) * Target) :=
  let _target :=
    match target with
    | TStr s => json_loads s
    | TDict d => Some d
    end in
  match keys with
  | KNone => Returns (_target, target)
  | KStr s =>
      if drop_keys then
        r ← drop_found (chars s) _target;
        Returns (r, match target, r with
                    | TDict _, Some d' => TDict d'
                    | _, _ => target
                    end)
      else
        r ← pick target _target (chars s) ∅;
        Returns (Some r, target)
  | KList l =>
      if drop_keys then
        r ← drop_found l _target;
        Returns (r, match target, r with
                    | TDict _, Some d' => TDict d'
                    | _, _ => target
                    end)
      else
        r ← pick target _target l ∅;
        Returns (Some r, target)
  end.

End ParseDict.

(** ** Vocabulary of the properties *)

(** A menu the display filter lets through: it has no sequence number, or
    one that [int] turns into 0. *)
Definition displayed `{Runtime} (m : Menu) : bool :=
  match collection m !! "sequence_number" with
  | None => true
  | Some v =>
      match py_int v with
      | Returns z => bool_decide (z = 0%Z)
      | Raises _ => false
      end
  end.

(** The menus in the first document of the business, and how many of them
    belong to a group. *)
Definition stored_menus (db : DatabaseConfig) (uid : string) : list Menu :=
  match get_cafe db uid None with
  | Some cafe => menus cafe
  | None => []
  end.

Definition in_group_count (db : DatabaseConfig) (uid grp_id : string) : nat :=
  length (filter (λ m, in_group grp_id m = true) (stored_menus db uid)).

End MongoHelper.

(** * yak_agents.py *)

Module YakAgents.

(** Modelled from the spec: the enumeration [YakStatus] of [yak_agents.py],
    which is not among the files; the specification's PlaybackStatus is
    the enumeration IDLE, TALKING, the two members [chat_api.py] uses. *)
Inductive YakStatus : Type := IDLE | TALKING.

#[global] Instance YakStatus_eq_dec : EqDecision YakStatus.
Proof. solve_decision. Defined.

(** Modelled from the spec: the class [YakAgent] of [yak_agents.py], which is
    not among the files.  A session state owns one playback status, the
    voice identity and the conversational agent; [chat_api.py] reaches the
    status under the attribute names [status] and [agent_status], which
    both denote that one field.  [runs] are the outputs of
    [agent.memory.runs]. *)
Record YakAgent : Type := mkYakAgent {
  business_uid : string;
  stream : bool;
  voice_id : string;
  runs : list string;
  status : YakStatus
}.

Definition set_status (s : YakStatus) (a : YakAgent) : YakAgent :=
  {| business_uid := business_uid a; stream := stream a;
     voice_id := voice_id a; runs := runs a; status := s |}.

Definition add_run (out : string) (a : YakAgent) : YakAgent :=
  {| business_uid := business_uid a; stream := stream a;
     voice_id := voice_id a; runs := runs a ++ [out]; status := status a |}.

(** Modelled from the spec: the constructor of [YakAgent]; IDLE is the
    initial status and a new agent has no conversation run. *)
Definition YakAgent_init (uid : string) (stream : bool) (voice : string)
    : YakAgent :=
  {| business_uid := uid; stream := stream; voice_id := voice;
     runs := []; status := IDLE |}.

End YakAgents.

(** * chat_api.py *)

Module ChatApi.
Import YakAgents.

(** ** Requests and responses *)

Record ApiUserMessage : Type := mkMessage {
  session_id : string;
  user_input : string
}.

Record SessionStart : Type := mkSessionStart {
  cfg_business_uid : string;
  cfg_menu_id : string;
  cfg_session_id : string;
  cfg_user_id : option string;
  cfg_stream : bool
}.

(** Modelled from the spec: [MultiPartResponse(meta, audio).prepare()] of
    [chat_data_classes.py], which is not among the files: a frame holding
    a JSON metadata block and the raw audio block; framing is total. *)
Record Chunk : Type := mkChunk {
  metadata : string;
  payload : Audio
}.

#[global] Instance Chunk_eq_dec : EqDecision Chunk.
Proof. solve_decision. Defined.

(** ** The registry and the objects it refers to

    [agent_registry] maps a session id to [None] (reserved) or to a
    reference to a [YakAgent]; the agents themselves live in [heap], so
    that the handler of one request and the generator of another see the
    same object. *)
Definition loc : Type := nat.

Record World : Type := mkWorld {
  agent_registry : gmap string (option loc);
  heap : gmap loc YakAgent
}.

Definition registry_wf (w : World) : Prop :=
  ∀ sid l, agent_registry w !! sid = Some (Some l) → is_Some (heap w !! l).

(** The agent a session id leads to, if any. *)
Definition session_agent (w : World) (sid : string) : option YakAgent :=
  match agent_registry w !! sid with
  | Some (Some l) => heap w !! l
  | _ => None
  end.

Definition status_at (w : World) (l : loc) : option YakStatus :=
  status <$> heap w !! l.

(** ** The streaming generator of [talk_with_agent] and [talk_with_avatar]

    Control points of [stream_generator]; an interrupt request may be
    served between any two of its steps. *)
Inductive StreamKind : Type := AgentStream | AvatarStream.

Inductive Pc : Type :=
| AtFor                          (* about to ask [text_preprocessor] for a phrase *)
| Synthesizing (phrase : string) (* the text-to-speech call is in flight *)
| AtYield                        (* chunk handed over; next is the status test *)
| AfterLoop                      (* loop left; next is [yak.status = IDLE] *)
| Finished
| Raised (e : PyExn).            (* an exception left the generator *)

Record StreamGen : Type := mkGen {
  gen_kind : StreamKind;
  gen_yak : loc;                 (* the closure's [yak] *)
  gen_voice : string;            (* the voice [TTS] was built with *)
  gen_calls : nat;               (* text-to-speech calls that have returned *)
  gen_todo : list string;        (* phrases [text_preprocessor] has yet to yield *)
  gen_pc : Pc
}.

Definition with_pc (pc : Pc) (g : StreamGen) : StreamGen :=
  {| gen_kind := gen_kind g; gen_yak := gen_yak g; gen_voice := gen_voice g;
     gen_calls := gen_calls g; gen_todo := gen_todo g; gen_pc := pc |}.

Definition with_todo (todo : list string) (g : StreamGen) : StreamGen :=
  {| gen_kind := gen_kind g; gen_yak := gen_yak g; gen_voice := gen_voice g;
     gen_calls := gen_calls g; gen_todo := todo; gen_pc := gen_pc g |}.

Definition count_call (g : StreamGen) : StreamGen :=
  {| gen_kind := gen_kind g; gen_yak := gen_yak g; gen_voice := gen_voice g;
     gen_calls := S (gen_calls g); gen_todo := gen_todo g; gen_pc := gen_pc g |}.

Inductive Response : Type :=
| SessionIdResp (sid : string)
| JsonStatus (status msg payload : string)
| TextStream (fragments : list string)
| DataResp (data : string)
| AudioStream (g : StreamGen)
| SayStream (voice prompt : string)
| LastResp (last : string)
| StdResponse (ok : bool) (msg payload : string)
| CollateResp (status message primary_menu_id : string).

Inductive Obs : Type :=
| SynthStart (phrase : string)
| Emit (c : Chunk)
| Interrupted.

#[global] Instance Obs_eq_dec : EqDecision Obs.
Proof. solve_decision. Defined.

Inductive Event : Type := Tick | Interrupt.

#[global] Instance Event_eq_dec : EqDecision Event.
Proof. solve_decision. Defined.

Definition NO_AGENT_FOUND : string :=
  "No agent found. An agent must be created prior to starting chat.".

Section Endpoints.

Context `{Runtime}.

(** [agent_registry[session_id] = v] *)
Definition registry_set (sid : string) (v : option loc) (w : World) : World :=
  {| agent_registry := <[sid := v]> (agent_registry w); heap := heap w |}.

(** A new object. *)
Definition alloc (a : YakAgent) (w : World) : World * loc :=
  let l := fresh (dom (heap w)) in
  ({| agent_registry := agent_registry w; heap := <[l := a]> (heap w) |}, l).

(** [if session_id not in agent_registry: raise RuntimeError(...)]
    followed by [yak = agent_registry[session_id]]. *)
Definition registry_checked (w : World) (sid : string) : Result (option loc) :=
  match agent_registry w !! sid with
  | None => Raises (RuntimeError NO_AGENT_FOUND)
  | Some r => Returns r
  end.

(** [yak = agent_registry[session_id]] without the membership test. *)
Definition registry_getitem (w : World) (sid : string) : Result (option loc) :=
  match agent_registry w !! sid with
  | None => Raises (KeyError sid)
  | Some r => Returns r
  end.

(** [yak.attr]; a reference always leads to an object in a well-formed
    world, the [SystemError] stands for the case that cannot arise. *)
Definition getattr {A} (w : World) (yak : option loc) (attr : string)
    (proj : YakAgent → A) : Result A :=
  match yak with
  | None => Raises (NoneType_has_no attr)
  | Some l =>
      match heap w !! l with
      | Some a => Returns (proj a)
      | None => Raises (SystemError "dangling reference")
      end
  end.

(** [yak.agent_status = s] and [yak.status = s] on an object. *)
Definition write_status (l : loc) (s : YakStatus) (w : World) : World :=
  {| agent_registry := agent_registry w;
     heap := alter (set_status s) l (heap w) |}.

Definition setattr_status (w : World) (yak : option loc) (s : YakStatus)
    : Result World :=
  match yak with
  | None => Raises (NoneType_has_no "agent_status")
  | Some l => Returns (write_status l s w)
  end.

(** [agent_reservation]; the caller supplies the UUID that [uuid4] draws. *)
Definition agent_reservation (uuid : string) (w : World) : World * Response :=
  (registry_set uuid None w, SessionIdResp uuid).

(** [agent_create].  The rule set handed to the language model is not
    modelled; every exception inside the [try] ends in the error
    response and leaves the registry as it was. *)
Definition build_agent (db : MongoHelper.DatabaseConfig) (config : SessionStart)
    : Result (option YakAgent) :=
  let cafe := MongoHelper.get_cafe db (cfg_business_uid config) None in
  let menu := MongoHelper.get_one_menu db (cfg_business_uid config)
                (cfg_menu_id config) in
  match menu with
  | None => Returns None                         (* early error return *)
  | Some _ =>
      match cfg_user_id config with
      | Some _ =>
          Raises (NotImplementedError "User based customisation not yet implemented.")
      | None =>
          match cafe with
          | None => Raises (NoneType_has_no "house_rules")
          | Some c =>
              match MongoHelper.avatar_settings c with
              | None => Raises (TypeError "argument of type 'NoneType' is not iterable")
              | Some avatar_config =>
                  let voice :=
                    match avatar_config !! "voice" with
                    | Some v => v
                    | None => default_voice_id
                    end in
                  Returns (Some (YakAgent_init (cfg_business_uid config)
                                   (cfg_stream config) voice))
              end
          end
      end
  end.

Definition agent_create (db : MongoHelper.DatabaseConfig)
    (config : SessionStart) (w : World) : World * Response :=
  match build_agent db config with
  | Returns None => (w, JsonStatus "error" "Menu not found" "")
  | Returns (Some yak_agent) =>
      let '(w1, l) := alloc yak_agent w in
      (registry_set (cfg_session_id config) (Some l) w1,
       JsonStatus "success" "" "")
  | Raises _ =>
      (w, JsonStatus "error" "A problem occured while creating a yak_agent" "")
  end.

Definition created (r : Response) : bool :=
  match r with
  | JsonStatus "success" _ _ => true
  | _ => false
  end.

(** [chat_with_agent]; [llm] are the fragments the language model
    produces for this request.  A blocking run is recorded in the
    agent's conversation memory. *)
Definition chat_with_agent (message : ApiUserMessage) (llm : list string)
    (w : World) : Result (World * Response) :=
  yak ← registry_checked w (session_id message);
  streaming ← getattr w yak "stream" stream;
  if streaming : bool then Returns (w, TextStream llm)
  else
    let response := String.concat "" llm in
    match yak with
    | Some l =>
        Returns ({| agent_registry := agent_registry w;
                    heap := alter (add_run response) l (heap w) |},
                 DataResp response)
    | None => Raises (NoneType_has_no "run")
    end.

(** [get_agent_to_say] *)
Definition get_agent_to_say (message : ApiUserMessage) (w : World)
    : Result Response :=
  yak ← registry_checked w (session_id message);
  voice ← getattr w yak "voice_id" voice_id;
  Returns (SayStream voice (user_input message)).

(** [get_last_response]: the body after the lookup is inside
    [try ... except Exception], which leaves [last_response = ""]. *)
Definition get_last_response (sid : string) (w : World) : Result Response :=
  yak ← registry_getitem w sid;
  let last_response :=
    match getattr w yak "agent" runs with
    | Returns rs =>
        match last rs with
        | Some out => out
        | None => ""                    (* [runs[-1]] on an empty list *)
        end
    | Raises _ => ""
    end in
  Returns (LastResp last_response).

(** [talk_with_agent]: [phrases] is what
    [TTS.text_preprocessor(Stream(yak.agent).run(user_input))] will yield. *)
Definition talk_with_agent (message : ApiUserMessage) (phrases : list string)
    (w : World) : Result (World * StreamGen) :=
  yak ← registry_checked w (session_id message);
  voice ← getattr w yak "voice_id" voice_id;
  w' ← setattr_status w yak TALKING;
  match yak with
  | Some l => Returns (w', mkGen AgentStream l voice 0 phrases AtFor)
  | None => Raises (NoneType_has_no "voice_id")
  end.

(** [talk_with_avatar] *)
Definition talk_with_avatar (message : ApiUserMessage) (phrases : list string)
    (w : World) : Result (World * StreamGen) :=
  yak ← registry_checked w (session_id message);
  voice ← getattr w yak "voice_id" voice_id;
  match yak with
  | Some l =>
      let g := mkGen AvatarStream l voice 0 phrases AtFor in
      w' ← setattr_status w yak TALKING;
      Returns (w', g)
  | None => Raises (NoneType_has_no "voice_id")
  end.

(** [agent_interrupt] *)
Definition agent_interrupt (sid : string) (w : World) : Result (World * Response) :=
  yak ← registry_getitem w sid;
  let w' :=
    match yak with
    | Some l => write_status l IDLE w       (* [if yak:] *)
    | None => w
    end in
  Returns (w', StdResponse true "OK" "Interrupted").

(** [menus_collate_images] *)
Definition menus_collate_images (db : MongoHelper.DatabaseConfig)
    (uid grp_id : string) : Result (MongoHelper.DatabaseConfig * Response) :=
  '(db', (ok, msg, count, primary_menu_id)) ← MongoHelper.collate_text db uid grp_id;
  Returns (db', CollateResp (if ok : bool then "success" else "erorr")
                  msg primary_menu_id).

(** ** One step of [stream_generator] *)

(** The synthesis call and the framing of its result: [talk_with_agent]
    frames the phrase with the audio, [talk_with_avatar] the viseme
    table with the audio. *)
Definition synthesize (kind : StreamKind) (voice : string) (call : nat)
    (phrase : string) : Result Chunk :=
  match kind with
  | AgentStream =>
      audio ← audio_stream_generator call voice phrase;
      Returns (mkChunk (json_dumps_str phrase) audio)
  | AvatarStream =>
      '(audio, visemes) ← audio_viseme_generator call voice phrase;
      Returns (mkChunk (json_dumps_visemes visemes) audio)
  end.

(** The call a stream is about to make, or is making. *)
Definition synthesize_next (g : StreamGen) (phrase : string) : Result Chunk :=
  synthesize (gen_kind g) (gen_voice g) (gen_calls g) phrase.

Definition gen_step (w : World) (g : StreamGen) : World * StreamGen * list Obs :=
  match gen_pc g with
  | AtFor =>
      match gen_todo g with
      | [] => (w, with_pc AfterLoop g, [])
      | phrase :: rest =>
          (w, with_pc (Synthesizing phrase) (with_todo rest g), [SynthStart phrase])
      end
  | Synthesizing phrase =>
      match synthesize_next g phrase with
      | Returns c => (w, with_pc AtYield (count_call g), [Emit c])
      | Raises e => (w, with_pc (Raised e) g, [])
      end
  | AtYield =>                       (* [if yak.status != YakStatus.TALKING] *)
      match status_at w (gen_yak g) with
      | Some TALKING => (w, with_pc AtFor g, [])
      | Some IDLE => (w, with_pc AfterLoop g, [])      (* [break] *)
      | None => (w, with_pc (Raised (SystemError "dangling reference")) g, [])
      end
  | AfterLoop => (write_status (gen_yak g) IDLE w, with_pc Finished g, [])
  | Finished => (w, g, [])
  | Raised _ => (w, g, [])
  end.

(** ** Schedules

    The transport asks the generator for its next step ([Tick]) while a
    client may call [/agent/interrupt/{session_id}] at any moment
    ([Interrupt]).  [exec] runs one stream under such a schedule and
    returns what could be observed, in time order. *)
Fixpoint exec (sid : string) (evs : list Event) (w : World) (g : StreamGen)
    : World * StreamGen * list Obs :=
  match evs with
  | [] => (w, g, [])
  | Tick :: evs' =>
      let '(w1, g1, o) := gen_step w g in
      let '(w2, g2, os) := exec sid evs' w1 g1 in
      (w2, g2, o ++ os)
  | Interrupt :: evs' =>
      match agent_interrupt sid w with
      | Returns (w1, _) =>
          let '(w2, g2, os) := exec sid evs' w1 g in
          (w2, g2, Interrupted :: os)
      | Raises _ => exec sid evs' w g
      end
  end.

Fixpoint ticks (evs : list Event) : nat :=
  match evs with
  | [] => 0
  | Tick :: evs' => S (ticks evs')
  | Interrupt :: evs' => ticks evs'
  end.

(** The chunks written to the client. *)
Fixpoint emitted (os : list Obs) : list Chunk :=
  match os with
  | [] => []
  | Emit c :: os' => c :: emitted os'
  | _ :: os' => emitted os'
  end.

Fixpoint started (os : list Obs) : list string :=
  match os with
  | [] => []
  | SynthStart p :: os' => p :: started os'
  | _ :: os' => started os'
  end.

(** What is observed after the first interrupt. *)
Fixpoint after_interrupt (os : list Obs) : list Obs :=
  match os with
  | [] => []
  | Interrupted :: os' => os'
  | _ :: os' => after_interrupt os'
  end.

(** A synthesis starts in [os] and its chunk is emitted. *)
Fixpoint starts_then_emits (os : list Obs) : bool :=
  match os with
  | [] => false
  | SynthStart _ :: os' =>
      negb (bool_decide (emitted os' = [])) || starts_then_emits os'
  | _ :: os' => starts_then_emits os'
  end.

(** The chunks of a list of phrases, when every synthesis succeeds. *)
Fixpoint chunks_from (kind : StreamKind) (voice : string) (call : nat)
    (phrases : list string) : Result (list Chunk) :=
  match phrases with
  | [] => Returns []
  | phrase :: rest =>
      c ← synthesize kind voice call phrase;
      cs ← chunks_from kind voice (S call) rest;
      Returns (c :: cs)
  end.

Definition chunks_of (g : StreamGen) (phrases : list string)
    : Result (list Chunk) :=
  chunks_from (gen_kind g) (gen_voice g) (gen_calls g) phrases.

(** ** The whole service

    The registry, the agents, and the streams that have been handed to
    the transport.  [sys_step] serves one request, or lets one stream
    take a step. *)
Record Sys : Type := mkSys {
  world : World;
  streams : list StreamGen
}.

Inductive Op : Type :=
| OpReserve (uuid : string)
| OpCreate (db : MongoHelper.DatabaseConfig) (config : SessionStart)
| OpChat (message : ApiUserMessage) (llm : list string)
| OpSay (message : ApiUserMessage)
| OpLast (sid : string)
| OpTalkAgent (message : ApiUserMessage) (phrases : list string)
| OpTalkAvatar (message : ApiUserMessage) (phrases : list string)
| OpInterrupt (sid : string)
| OpNext (i : nat).

Definition sys_step (op : Op) (s : Sys) : Sys :=
  match op with
  | OpReserve uuid =>
      {| world := (agent_reservation uuid (world s)).1; streams := streams s |}
  | OpCreate db config =>
      {| world := (agent_create db config (world s)).1; streams := streams s |}
  | OpChat message llm =>
      match chat_with_agent message llm (world s) with
      | Returns (w, _) => {| world := w; streams := streams s |}
      | Raises _ => s
      end
  | OpSay _ => s
  | OpLast _ => s
  | OpTalkAgent message phrases =>
      match talk_with_agent message phrases (world s) with
      | Returns (w, g) => {| world := w; streams := streams s ++ [g] |}
      | Raises _ => s
      end
  | OpTalkAvatar message phrases =>
      match talk_with_avatar message phrases (world s) with
      | Returns (w, g) => {| world := w; streams := streams s ++ [g] |}
      | Raises _ => s
      end
  | OpInterrupt sid =>
      match agent_interrupt sid (world s) with
      | Returns (w, _) => {| world := w; streams := streams s |}
      | Raises _ => s
      end
  | OpNext i =>
      match streams s !! i with
      | Some g =>
          let '(w, g', _) := gen_step (world s) g in
          {| world := w; streams := <[i := g']> (streams s) |}
      | None => s
      end
  end.

Definition run (ops : list Op) (s : Sys) : Sys :=
  foldl (λ acc op, sys_step op acc) s ops.

(** The service as the module is loaded: [agent_registry = {}]. *)
Definition boot : Sys :=
  {| world := {| agent_registry := ∅; heap := ∅ |}; streams := [] |}.

(** [op] is an [agent_create] for [sid] that succeeds in [s]. *)
Definition creates (sid : string) (op : Op) (s : Sys) : bool :=
  match op with
  | OpCreate db config =>
      bool_decide (cfg_session_id config = sid) &&
      created (agent_create db config (world s)).2
  | _ => false
  end.

Fixpoint no_create_success (sid : string) (ops : list Op) (s : Sys) : bool :=
  match ops with
  | [] => true
  | op :: ops' =>
      negb (creates sid op s) && no_create_success sid ops' (sys_step op s)
  end.

(** [op] is a reservation of [sid] or an [agent_create] for it. *)
Definition touches (sid : string) (op : Op) : bool :=
  match op with
  | OpReserve uuid => bool_decide (uuid = sid)
  | OpCreate _ config => bool_decide (cfg_session_id config = sid)
  | _ => false
  end.

(** What stream [i] writes and starts while the service serves [ops]:
    its observations are those of its own steps, whatever is served in
    between. *)
Definition op_obs (i : nat) (op : Op) (s : Sys) : list Obs :=
  match op with
  | OpNext j =>
      if bool_decide (j = i) then
        match streams s !! i with
        | Some g => (gen_step (world s) g).2
        | None => []
        end
      else []
  | _ => []
  end.

Fixpoint trace (i : nat) (ops : list Op) (s : Sys) : list Obs :=
  match ops with
  | [] => []
  | op :: ops' => op_obs i op s ++ trace i ops' (sys_step op s)
  end.

(** [op] is a talk request for a session bound to the agent [l]. *)
Definition talks_on (l : loc) (op : Op) (s : Sys) : bool :=
  match op with
  | OpTalkAgent message _ | OpTalkAvatar message _ =>
      bool_decide (agent_registry (world s) !! session_id message = Some (Some l))
  | _ => false
  end.

Fixpoint no_talk_on (l : loc) (ops : list Op) (s : Sys) : bool :=
  match ops with
  | [] => true
  | op :: ops' => negb (talks_on l op s) && no_talk_on l ops' (sys_step op s)
  end.

End Endpoints.

(** ** Vocabulary of the properties *)

(** The two forms the error for an unknown session takes: the
    [RuntimeError] behind the membership test, and the [KeyError] of a
    bare [agent_registry[session_id]]. *)
Definition SessionNotFound (sid : string) (e : PyExn) : Prop :=
  e = RuntimeError NO_AGENT_FOUND ∨ e = KeyError sid.

Definition fails_SessionNotFound {A} (sid : string) (r : Result A) : Prop :=
  ∃ e, r = Raises e ∧ SessionNotFound sid e.




(** How many chunks a stream whose agent is no longer TALKING can still
    emit, how many syntheses it can still start, and how many steps a
    stream needs at most to finish. *)
Definition emit_budget (pc : Pc) : nat :=
  match pc with
  | AtFor | Synthesizing _ => 1
  | _ => 0
  end.

Definition start_budget (pc : Pc) : nat :=
  match pc with
  | AtFor => 1
  | _ => 0
  end.

Definition steps_left (g : StreamGen) : nat :=
  match gen_pc g with
  | AtFor => 3 * length (gen_todo g) + 2
  | Synthesizing _ => 3 * length (gen_todo g) + 4
  | AtYield => 3 * length (gen_todo g) + 3
  | AfterLoop => 1
  | Finished | Raised _ => 0
  end.

(** The phrases a stream has yet to synthesize, the one in flight first. *)
Definition pending (g : StreamGen) : list string :=
  match gen_pc g with
  | AtFor | AtYield => gen_todo g
  | Synthesizing p => p :: gen_todo g
  | _ => []
  end.

(** The interruption contract in the words of the specification: after the
    first interrupt no chunk is emitted for a phrase whose synthesis starts
    only then. *)
Definition interrupt_contract (os : list Obs) : Prop :=
  starts_then_emits (after_interrupt os) = false.

(** The conditions under which a stream cannot raise: its agent exists,
    the synthesis of each pending phrase succeeds, and it has not raised
    yet. *)
Definition sound `{Runtime} (w : World) (g : StreamGen) : Prop :=
  is_Some (heap w !! gen_yak g)
  ∧ (∀ i p, pending g !! i = Some p →
       ∃ c, synthesize (gen_kind g) (gen_voice g) (gen_calls g + i) p = Returns c)
  ∧ (∀ e, gen_pc g ≠ Raised e).

(** A stream is over once the generator has returned or raised. *)
Definition stream_over (g : StreamGen) : Prop :=
  gen_pc g = Finished ∨ ∃ e, gen_pc g = Raised e.

(** The object at [l] is in [w'] what it is in [w], but for its status. *)
Definition same_but_status (w w' : World) (l : loc) : Prop :=
  heap w' !! l = heap w !! l
  ∨ ∃ a st, heap w !! l = Some a ∧ heap w' !! l = Some (set_status st a).

(** ** [menu_ocr]

    What the OCR server sent: whether the response is OK, and what
    [json.loads(response.text)] makes of its body: not JSON, an object
    without ["data"], or one whose ["data"] has or lacks ["stdout"]. *)
Inductive OcrBody : Type :=
| BodyInvalid
| BodyNoData
| BodyData (stdout : option string).

Record OcrResponse : Type := mkOcrResponse {
  resp_ok : bool;
  resp_body : OcrBody
}.

(** The local [msg] holds a string or the exception that was caught. *)
Inductive Message : Type :=
| MsgText (s : string)
| MsgExn (e : PyExn).

(** [menu_ocr].  [file] is the outcome of opening the image and [post] that
    of [requests.post]; the local [msg] is bound only on some paths, [None]
    stands for the unbound local.  The answer is the pair of ["status"] and
    ["message"]. *)
Definition menu_ocr (db : MongoHelper.DatabaseConfig) (uid mid : string)
    (file : Result unit) (post : Result OcrResponse)
    : Result (MongoHelper.DatabaseConfig * (string * Message)) :=
  let outcome : MongoHelper.DatabaseConfig * bool * option Message :=
    match file with
    | Raises e => (db, false, Some (MsgExn e))
    | Returns _ =>
        match post with
        | Raises e => (db, false, Some (MsgExn e))
        | Returns response =>
            if resp_ok response then
              match resp_body response with
              | BodyInvalid =>
                  (db, false, Some (MsgExn (ValueError "Expecting value")))
              | BodyNoData => (db, false, Some (MsgExn (KeyError "data")))
              | BodyData (Some stdout) =>
                  let '(db', (ok, msg)) :=
                    MongoHelper.update_menu_field db uid mid stdout in
                  (db', ok, Some (MsgText msg))
              | BodyData None =>
                  (* the log line reads [msg] before it is bound *)
                  (db, false, Some (MsgExn (UnboundLocalError "msg")))
              end
            else (db, false, None)
        end
    end in
  let '(db', status, msg) := outcome in
  match msg with
  | None => Raises (UnboundLocalError "msg")
  | Some m => Returns (db', (if status : bool then "success" else "error", m))
  end.

End ChatApi.

(** * A concrete setting for examples *)

Module Scenario.
Import YakAgents ChatApi.

(** A backend that fails on the phrase ["(static)"] and otherwise returns
    the phrase itself as audio. *)
Definition demo_runtime : Runtime := {|
  int_of_str := λ _, None;
  json_dumps_str := λ s, s;
  json_dumps_visemes := λ _, "[]";
  audio_stream_generator := λ _ _ phrase,
    if bool_decide (phrase = "(static)")
    then Raises (BackendError "synthesis failed")
    else Returns phrase;
  audio_viseme_generator := λ _ _ phrase,
    if bool_decide (phrase = "(static)")
    then Raises (BackendError "synthesis failed")
    else Returns (phrase, []);
  default_voice_id := "en-AU-KimNeural"
|}.

Definition kim : YakAgent := YakAgent_init "cafe-1" true "en-AU-KimNeural".

(** One created session ["s1"] and one reserved session ["s0"]. *)
Definition w0 : World :=
  {| agent_registry := <["s1" := Some 0%nat]> (<["s0" := None]> ∅);
     heap := <[0%nat := kim]> ∅ |}.

Definition hello : ApiUserMessage := mkMessage "s1" "hi".

(** The world and the generator once [talk_with_agent] has accepted
    [hello]. *)
Definition w_talking : World :=
  {| agent_registry := agent_registry w0;
     heap := <[0%nat := set_status TALKING kim]> ∅ |}.

Definition stream_of (phrases : list string) : StreamGen :=
  mkGen AgentStream 0%nat "en-AU-KimNeural" 0%nat phrases AtFor.

Definition menu_of (mid : string) (coll : list (string * PyVal)) (text : string)
    : MongoHelper.Menu :=
  MongoHelper.mkMenu mid (list_to_map coll) text.

Definition cafe_of (ms : list MongoHelper.Menu) : MongoHelper.Cafe :=
  MongoHelper.mkCafe "cafe-1" ms (Some ∅).

Definition grp : string := "0b1e6f0c-aaaa".

(** A cafe without menus, a cafe whose only menu names a group but no
    sequence number, and a cafe with a primary menu and a menu outside
    every group. *)
Definition db_empty : MongoHelper.DatabaseConfig :=
  MongoHelper.mkDb [cafe_of []].

Definition db_unsequenced : MongoHelper.DatabaseConfig :=
  MongoHelper.mkDb [cafe_of [menu_of "m1" [("grp_id", PStr grp)] "Pies"]].

Definition db_two : MongoHelper.DatabaseConfig :=
  MongoHelper.mkDb
    [cafe_of [menu_of "m1" [("grp_id", PStr grp); ("sequence_number", PInt 0)] "Pies";
              menu_of "m2" [] "Tea"]].

(** The world once the agent of ["s1"] has answered two blocking
    chats. *)
Definition w_chatted : World :=
  {| agent_registry := agent_registry w0;
     heap := <[0%nat := add_run "Flat white?" (add_run "Hello." kim)]> ∅ |}.

(** The service while the stream of a talk request on ["s1"] is with the
    transport. *)
Definition sys_talking : Sys :=
  {| world := w_talking; streams := [stream_of ["a"; "b"; "c"]] |}.

(** A request to create the agent of ["s0"] on a menu the database does
    not hold: it fails, and ["s0"] stays reserved. *)
Definition bad_create : Op :=
  OpCreate db_empty (mkSessionStart "cafe-1" "no-such-menu" "s0" None true).

(** A schedule that serves an interrupt after the status test that follows
    the first chunk and before the second phrase is asked for. *)
Definition late_interrupt : list Event :=
  [Tick; Tick; Tick; Interrupt; Tick; Tick; Tick; Tick].

(** A cafe with three pages of one group, the last with a sequence number
    that is not a number; the same cafe with only the two good pages. *)
Definition page (mid : string) (seq : PyVal) (text : string) : MongoHelper.Menu :=
  menu_of mid [("grp_id", PStr grp); ("sequence_number", seq)] text.

Definition db_pages : MongoHelper.DatabaseConfig :=
  MongoHelper.mkDb [cafe_of [page "p0" (PInt 0) "Pies"; page "p1" (PInt 1) "Tea"]].

Definition db_bad_page : MongoHelper.DatabaseConfig :=
  MongoHelper.mkDb
    [cafe_of [page "p0" (PInt 0) "Pies"; page "p1" (PInt 1) "Tea";
              page "p2" (PStr "two") "Cake"]].

End Scenario.

(** * Properties of mongodb_helper.py *)

Module MongoFacts.
Import MongoHelper Scenario.

Section Facts.

Context `{Runtime}.

Lemma mapR_total {A B} (f : A → Result B) (l : list A) :
  (∀ x, x ∈ l → ∃ y, f x = Returns y) →
  ∃ ys, mapR f l = Returns ys.
Proof.
  induction l as [|x l IH]; intros Hall.
  - by exists [].
  - destruct (Hall x) as [y Hy]; [left|].
    destruct IH as [ys Hys].
    { intros z Hz. apply Hall. by right. }
    exists (y :: ys). simpl. by rewrite Hy, Hys.
Qed.

Lemma sorted_by_sequence_total (ms : list Menu) :
  (∀ m, m ∈ ms → ∃ z, sequence_key m = Returns z) →
  ∃ sorted_menus, sorted_by_sequence ms = Returns sorted_menus.
Proof.
  intros Hall. unfold sorted_by_sequence.
  destruct (mapR_total (λ x, k ← sequence_key x; Returns (k, x)) ms) as [ks Hks].
  { intros m Hm. destruct (Hall m Hm) as [z Hz]. exists (z, m). by rewrite Hz. }
  rewrite Hks. by eexists.
Qed.

(** C10.  For a business whose cafe record has no menu, a [grp_id] of more
    than ten characters makes [count_menus_in_collection] raise
    [UnboundLocalError] (a [NameError]) on its local [menus]: it does not
    return 0. *)
Theorem count_menus_unbound_local (db : DatabaseConfig) (uid grp_id : string)
    (cafe : Cafe) :
  get_cafe db uid None = Some cafe →
  menus cafe = [] →
  (10 < py_len grp_id)%nat →
  count_menus_in_collection db uid grp_id = Raises (UnboundLocalError "menus")
  ∧ is_NameError (UnboundLocalError "menus") = true
  ∧ count_menus_in_collection db uid grp_id ≠ Returns 0%nat.
Proof.
  intros Hcafe Hmenus Hlen.
  assert (Hraise : count_menus_in_collection db uid grp_id
                   = Raises (UnboundLocalError "menus")).
  { unfold count_menus_in_collection.
    rewrite (bool_decide_eq_false_2 (py_len grp_id ≤ 10)%nat) by lia.
    rewrite andb_false_r, Hcafe, Hmenus. reflexivity. }
  split; [exact Hraise|]. split; [reflexivity|]. by rewrite Hraise.
Qed.

(** C9, as amended.  When [get_menu_list] returns a non-empty list and every
    menu of the group carries a sequence number that [int] accepts,
    [collate_text] returns with [True] as its success flag whatever
    [update_menu_field] reports; a failed update only zeroes the count
    and the primary menu id, and [menus_collate_images] answers
    "success". *)
Theorem collate_text_flag_always_true (db : DatabaseConfig) (uid grp_id : string) :
  get_menu_list db uid true ≠ [] →
  (∀ m, m ∈ group_of db uid grp_id → ∃ z, sequence_key m = Returns z) →
  ∃ sorted_menus,
    sorted_by_sequence (group_of db uid grp_id) = Returns sorted_menus ∧
    let upd := update_menu_field db uid (primary_of sorted_menus)
                 (String.concat "" (menu_text <$> sorted_menus)) in
    let ok := upd.2.1 in
    let count := if ok then length (group_of db uid grp_id) else 0%nat in
    let primary_menu_id := if ok then primary_of sorted_menus else "" in
    collate_text db uid grp_id
      = Returns (upd.1, (true, upd.2.2, count, primary_menu_id)) ∧
    ChatApi.menus_collate_images db uid grp_id
      = Returns (upd.1, ChatApi.CollateResp "success" upd.2.2 primary_menu_id).
Proof.
  intros Hne Hkeys.
  destruct (sorted_by_sequence_total _ Hkeys) as [sorted_menus Hsorted].
  exists sorted_menus. split; [done|].
  assert (Hlen : bool_decide (length (get_menu_list db uid true) = 0%nat) = false).
  { apply bool_decide_eq_false_2. by destruct (get_menu_list db uid true). }
  assert (Hcollate : collate_text db uid grp_id
    = Returns ((update_menu_field db uid (primary_of sorted_menus)
                  (String.concat "" (menu_text <$> sorted_menus))).1,
               (true,
                (update_menu_field db uid (primary_of sorted_menus)
                  (String.concat "" (menu_text <$> sorted_menus))).2.2,
                (if (update_menu_field db uid (primary_of sorted_menus)
                  (String.concat "" (menu_text <$> sorted_menus))).2.1
                 then length (group_of db uid grp_id) else 0%nat),
                (if (update_menu_field db uid (primary_of sorted_menus)
                  (String.concat "" (menu_text <$> sorted_menus))).2.1
                 then primary_of sorted_menus else "")))).
  { unfold collate_text. rewrite Hlen.
    rewrite Hsorted. simpl.
    destruct (update_menu_field db uid (primary_of sorted_menus)
                (String.concat "" (menu_text <$> sorted_menus)))
      as [db' [[] msg]]; reflexivity. }
  simpl. split; [exact Hcollate|].
  unfold ChatApi.menus_collate_images. rewrite Hcollate. reflexivity.
Qed.

End Facts.

Lemma count_menus_unbound_local_witness :
  count_menus_in_collection db_empty "cafe-1" grp
    = Raises (UnboundLocalError "menus")
  ∧ is_NameError (UnboundLocalError "menus") = true
  ∧ count_menus_in_collection db_empty "cafe-1" grp
    ≠ Returns 0%nat.
Proof.
  apply (count_menus_unbound_local db_empty "cafe-1" grp (cafe_of [])).
  - reflexivity.
  - reflexivity.
  - vm_compute. lia.
Defined.

(** The length test counts characters: an id of eight two-byte characters
    is short, and the count is 0 without the cafe being read. *)
Example count_menus_counts_characters :
  py_len "éééééééé" = 8%nat
  ∧ count_menus_in_collection db_empty "cafe-1" "éééééééé" = Returns 0%nat.
Proof. vm_compute. done. Qed.

(** C9, as stated, fails: the list of menus is not empty, yet the sort key
    of a menu that names the group without a sequence number raises
    [KeyError] and [collate_text] returns nothing. *)
Lemma collate_text_may_raise :
  get_menu_list (H := demo_runtime) db_unsequenced "cafe-1" true ≠ []
  ∧ collate_text (H := demo_runtime) db_unsequenced "cafe-1" grp
    = Raises (KeyError "sequence_number")
  ∧ ∀ db' msg count primary_menu_id,
      collate_text (H := demo_runtime) db_unsequenced "cafe-1" grp
      ≠ Returns (db', (true, msg, count, primary_menu_id)).
Proof.
  assert (Hraise : collate_text (H := demo_runtime) db_unsequenced "cafe-1" grp
                   = Raises (KeyError "sequence_number")) by (vm_compute; reflexivity).
  split; [|split].
  - vm_compute. discriminate.
  - exact Hraise.
  - intros db' msg count primary_menu_id Hr. rewrite Hraise in Hr. discriminate.
Qed.

Lemma collate_text_flag_always_true_witness :
  ∃ sorted_menus,
    sorted_by_sequence (H := demo_runtime)
      (group_of (H := demo_runtime) db_two "cafe-1" "no-such-group") = Returns sorted_menus ∧
    collate_text (H := demo_runtime) db_two "cafe-1" "no-such-group"
      = Returns (db_two, (true, update_failed_msg, 0%nat, "")).
Proof.
  destruct (collate_text_flag_always_true (H := demo_runtime) db_two "cafe-1" "no-such-group")
    as [sorted_menus [Hsorted [Hcollate _]]].
  - vm_compute. discriminate.
  - intros m Hm. vm_compute in Hm. inversion Hm.
  - exists sorted_menus. split; [exact Hsorted|].
    rewrite Hcollate.
    assert (sorted_menus = []) as ->.
    { vm_compute in Hsorted. congruence. }
    vm_compute. reflexivity.
Defined.

End MongoFacts.

(** * Properties of chat_api.py *)

Module ChatFacts.
Import YakAgents ChatApi Scenario.
#[local] Open Scope nat_scope.

Ltac unfold_api :=
  unfold chat_with_agent, get_agent_to_say, get_last_response,
    talk_with_agent, talk_with_avatar, agent_interrupt, agent_reservation,
    agent_create, registry_checked, registry_getitem, getattr,
    setattr_status, alloc, registry_set, mbind, Result_bind in *.

Section Registry.

Context `{Runtime}.

(** *** Status reads after status writes *)

Lemma status_at_write_eq l s w :
  is_Some (heap w !! l) → status_at (write_status l s w) l = Some s.
Proof.
  intros [a Ha]. unfold status_at, write_status. simpl.
  by rewrite lookup_alter_eq, Ha.
Qed.

Lemma status_at_write_ne l l' s w :
  l' ≠ l → status_at (write_status l' s w) l = status_at w l.
Proof.
  intros Hne. unfold status_at, write_status. simpl.
  by rewrite lookup_alter_ne.
Qed.

Lemma write_status_allocated l l' s w :
  is_Some (heap (write_status l' s w) !! l) ↔ is_Some (heap w !! l).
Proof. unfold write_status. simpl. apply lookup_alter_is_Some. Qed.

Lemma not_talking_write_idle l l' w :
  status_at w l ≠ Some TALKING →
  status_at (write_status l' IDLE w) l ≠ Some TALKING.
Proof.
  intros Hnt. destruct (decide (l' = l)) as [->|Hne].
  - unfold status_at, write_status. simpl. rewrite lookup_alter_eq.
    by destruct (heap w !! l).
  - by rewrite status_at_write_ne.
Qed.

Lemma write_status_same l w a :
  heap w !! l = Some a → status a = IDLE → write_status l IDLE w = w.
Proof.
  intros Ha Hst. destruct w as [reg hp]. unfold write_status. simpl in *.
  f_equal. apply alter_id. intros x Hx.
  assert (x = a) as -> by congruence.
  destruct a. simpl in *. by subst.
Qed.

(** *** What an interrupt does *)

Lemma agent_interrupt_existing w sid l :
  agent_registry w !! sid = Some (Some l) →
  agent_interrupt sid w
  = Returns (write_status l IDLE w, StdResponse true "OK" "Interrupted").
Proof. intros Hreg. unfold_api. by rewrite Hreg. Qed.


(** C6.  [agent_interrupt] is idempotent: on an existing session one call
    answers "Interrupted" and leaves the status IDLE, a further call
    answers the same and changes nothing, and a call on a session that
    is already IDLE changes nothing at all. *)
Theorem agent_interrupt_idempotent (w : World) (sid : string) (yak : YakAgent) :
  session_agent w sid = Some yak →
  ∃ w1,
    agent_interrupt sid w = Returns (w1, StdResponse true "OK" "Interrupted")
    ∧ status <$> session_agent w1 sid = Some IDLE
    ∧ agent_interrupt sid w1 = Returns (w1, StdResponse true "OK" "Interrupted")
    ∧ (status yak = IDLE → w1 = w).
Proof.
  unfold session_agent. intros Hag.
  destruct (agent_registry w !! sid) as [[l|]|] eqn:Hreg; try done.
  exists (write_status l IDLE w).
  split; [by apply agent_interrupt_existing|].
  split.
  { simpl. rewrite Hreg, lookup_alter_eq, Hag. reflexivity. }
  split.
  { rewrite (agent_interrupt_existing _ sid l) by done.
    rewrite (write_status_same l (write_status l IDLE w) (set_status IDLE yak)).
    - reflexivity.
    - simpl. by rewrite lookup_alter_eq, Hag.
    - reflexivity. }
  intros Hidle. by apply (write_status_same l w yak).
Qed.

(** *** The registry under the requests of the service *)

Lemma gen_step_registry w g :
  agent_registry (gen_step w g).1.1 = agent_registry w.
Proof. unfold gen_step. by repeat case_match. Qed.

Lemma registry_untouched op s sid :
  touches sid op = false →
  agent_registry (world (sys_step op s)) !! sid
  = agent_registry (world s) !! sid.
Proof.
  intros Hop. destruct op; simpl in *.
  - apply bool_decide_eq_false_1 in Hop. by rewrite lookup_insert_ne.
  - apply bool_decide_eq_false_1 in Hop. unfold_api.
    repeat case_match; simplify_eq/=; try done.
    by rewrite lookup_insert_ne.
  - unfold_api. by repeat (case_match; simplify_eq/=).
  - done.
  - done.
  - unfold_api. by repeat (case_match; simplify_eq/=).
  - unfold_api. by repeat (case_match; simplify_eq/=).
  - unfold_api. by repeat (case_match; simplify_eq/=).
  - destruct (streams s !! i) as [g|]; [|done].
    pose proof (gen_step_registry (world s) g) as Hg.
    destruct (gen_step (world s) g) as [[w' g'] o]. simpl in *. by rewrite Hg.
Qed.

Lemma run_cons op ops s : run (op :: ops) s = run ops (sys_step op s).
Proof. reflexivity. Qed.

Lemma run_untouched ops s sid :
  forallb (λ op, negb (touches sid op)) ops = true →
  agent_registry (world (run ops s)) !! sid = agent_registry (world s) !! sid.
Proof.
  revert s. induction ops as [|op ops IH]; intros s Hall; [done|].
  simpl in Hall. apply andb_prop in Hall as [Hop Hall].
  rewrite run_cons, IH by done.
  apply registry_untouched. by apply negb_true_iff.
Qed.

Lemma reserved_stays op s sid :
  creates sid op s = false →
  agent_registry (world s) !! sid = Some None →
  agent_registry (world (sys_step op s)) !! sid = Some None.
Proof.
  intros Hcr Hres.
  destruct (touches sid op) eqn:Htouch.
  - destruct op; simpl in *; try done.
    + apply bool_decide_eq_true_1 in Htouch. subst. by rewrite lookup_insert_eq.
    + apply bool_decide_eq_true_1 in Htouch.
      rewrite bool_decide_eq_true_2 in Hcr by done. simpl in Hcr.
      unfold agent_create in *.
      destruct (build_agent db config) as [[a|]|e]; simpl in *; try done.
  - by rewrite registry_untouched.
Qed.

Lemma run_reserved ops s sid :
  no_create_success sid ops s = true →
  agent_registry (world s) !! sid = Some None →
  agent_registry (world (run ops s)) !! sid = Some None.
Proof.
  revert s. induction ops as [|op ops IH]; intros s Hno Hres; [done|].
  simpl in Hno. apply andb_prop in Hno as [Hop Hno].
  rewrite run_cons. apply IH; [done|].
  apply reserved_stays; [|done]. by apply negb_true_iff.
Qed.

Lemma unknown_session_errors w sid inp llm phrases :
  agent_registry w !! sid = None →
  chat_with_agent (mkMessage sid inp) llm w = Raises (RuntimeError NO_AGENT_FOUND)
  ∧ talk_with_agent (mkMessage sid inp) phrases w = Raises (RuntimeError NO_AGENT_FOUND)
  ∧ talk_with_avatar (mkMessage sid inp) phrases w = Raises (RuntimeError NO_AGENT_FOUND)
  ∧ get_agent_to_say (mkMessage sid inp) w = Raises (RuntimeError NO_AGENT_FOUND)
  ∧ get_last_response sid w = Raises (KeyError sid)
  ∧ agent_interrupt sid w = Raises (KeyError sid).
Proof. intros Hreg. unfold_api. simpl. rewrite Hreg. done. Qed.

(** C4.  A session id that no reservation and no [agent_create] ever named
    is not in the registry, and each of the six conversational endpoints
    then fails with the unknown-session error (the [RuntimeError] of the
    membership test, or the [KeyError] of the bare lookup in
    [get_last_response] and [agent_interrupt]); none works on a default
    or empty session. *)
Theorem unknown_session_is_hard_error (ops : list Op) (sid inp : string)
    (llm phrases : list string) :
  forallb (λ op, negb (touches sid op)) ops = true →
  let w := world (run ops boot) in
  agent_registry w !! sid = None
  ∧ fails_SessionNotFound sid (chat_with_agent (mkMessage sid inp) llm w)
  ∧ fails_SessionNotFound sid (talk_with_agent (mkMessage sid inp) phrases w)
  ∧ fails_SessionNotFound sid (talk_with_avatar (mkMessage sid inp) phrases w)
  ∧ fails_SessionNotFound sid (get_agent_to_say (mkMessage sid inp) w)
  ∧ fails_SessionNotFound sid (get_last_response sid w)
  ∧ fails_SessionNotFound sid (agent_interrupt sid w).
Proof.
  intros Hops w.
  assert (Hreg : agent_registry w !! sid = None).
  { unfold w. rewrite run_untouched by done. apply lookup_empty. }
  destruct (unknown_session_errors w sid inp llm phrases Hreg)
    as (Hchat & Hagent & Havatar & Hsay & Hlast & Hint).
  split; [done|].
  unfold fails_SessionNotFound, SessionNotFound.
  rewrite Hchat, Hagent, Havatar, Hsay, Hlast, Hint.
  repeat split; eauto.
Qed.

(** C8.  A session id that was reserved and for which no [agent_create]
    has succeeded since is mapped to [None]: the membership test of the
    conversational endpoints passes and they fail on an attribute of the
    missing agent, not with the unknown-session error, while
    [agent_interrupt] answers "Interrupted" and changes nothing. *)
Theorem reserved_session_behaviour (s0 : Sys) (sid inp : string)
    (ops : list Op) (llm phrases : list string) :
  no_create_success sid ops (sys_step (OpReserve sid) s0) = true →
  let w := world (run ops (sys_step (OpReserve sid) s0)) in
  agent_registry w !! sid = Some None
  ∧ registry_checked w sid = Returns None
  ∧ chat_with_agent (mkMessage sid inp) llm w = Raises (NoneType_has_no "stream")
  ∧ talk_with_agent (mkMessage sid inp) phrases w = Raises (NoneType_has_no "voice_id")
  ∧ talk_with_avatar (mkMessage sid inp) phrases w = Raises (NoneType_has_no "voice_id")
  ∧ get_agent_to_say (mkMessage sid inp) w = Raises (NoneType_has_no "voice_id")
  ∧ (∀ attr, ¬ SessionNotFound sid (NoneType_has_no attr))
  ∧ agent_interrupt sid w = Returns (w, StdResponse true "OK" "Interrupted").
Proof.
  intros Hno w.
  assert (Hreg : agent_registry w !! sid = Some None).
  { unfold w. apply run_reserved; [done|]. simpl. apply lookup_insert_eq. }
  split; [done|].
  repeat split; try (unfold_api; simpl; by rewrite Hreg).
  intros attr [Hbad|Hbad]; discriminate.
Qed.

(** *** Status changes *)


Lemma alloc_keeps a0 w l a :
  heap w !! l = Some a → heap (alloc a0 w).1 !! l = Some a.
Proof.
  intros Ha. unfold alloc. simpl. rewrite lookup_insert_ne; [done|].
  intros Heq. pose proof (is_fresh (dom (heap w))) as Hfresh.
  apply Hfresh. rewrite Heq. apply elem_of_dom. by eexists.
Qed.

Lemma gen_step_world w g :
  (gen_step w g).1.1 = w
  ∨ (gen_pc g = AfterLoop ∧ (gen_step w g).1.1 = write_status (gen_yak g) IDLE w).
Proof. unfold gen_step. repeat case_match; auto. Qed.

Lemma build_agent_idle db config ag :
  build_agent db config = Returns (Some ag) → status ag = IDLE.
Proof.
  unfold build_agent. intros Hb.
  repeat (case_match; simplify_eq/=); reflexivity.
Qed.


(** A reference held by the registry always leads to an agent. *)
Lemma sys_step_wf op s :
  registry_wf (world s) → registry_wf (world (sys_step op s)).
Proof.
  intros Hwf sid l. destruct op.
  - simpl. intros Hl.
    destruct (decide (uuid = sid)) as [->|Hne].
    + by rewrite lookup_insert_eq in Hl.
    + rewrite lookup_insert_ne in Hl by done. by apply (Hwf sid).
  - simpl. unfold agent_create.
    destruct (build_agent db config) as [[ag|]|e]; simpl; try apply Hwf.
    intros Hl. destruct (decide (cfg_session_id config = sid)) as [Heq|Hne].
    + rewrite Heq, lookup_insert_eq in Hl. simplify_eq. by rewrite lookup_insert_eq.
    + rewrite lookup_insert_ne in Hl by done.
      destruct (Hwf sid l Hl) as [a Ha]. exists a.
      by apply (alloc_keeps ag (world s) l a).
  - rewrite registry_untouched by done. intros Hl.
    unfold sys_step. unfold_api.
    repeat (case_match; simplify_eq/=); try (by apply (Hwf sid)).
    rewrite lookup_alter_is_Some. by apply (Hwf sid).
  - apply Hwf.
  - apply Hwf.
  - rewrite registry_untouched by done. intros Hl.
    unfold sys_step. unfold_api.
    repeat (case_match; simplify_eq/=); try (by apply (Hwf sid)).
    rewrite lookup_alter_is_Some. by apply (Hwf sid).
  - rewrite registry_untouched by done. intros Hl.
    unfold sys_step. unfold_api.
    repeat (case_match; simplify_eq/=); try (by apply (Hwf sid)).
    rewrite lookup_alter_is_Some. by apply (Hwf sid).
  - rewrite registry_untouched by done. intros Hl.
    unfold sys_step. unfold_api.
    repeat (case_match; simplify_eq/=); try (by apply (Hwf sid)).
    rewrite lookup_alter_is_Some. by apply (Hwf sid).
  - rewrite registry_untouched by done. intros Hl. simpl.
    destruct (streams s !! i) as [g|]; [|by apply (Hwf sid)].
    pose proof (gen_step_world (world s) g) as Hw.
    destruct (gen_step (world s) g) as [[w1 g1] o]. simpl in *.
    destruct Hw as [->|[_ ->]]; [by apply (Hwf sid)|].
    rewrite write_status_allocated. by apply (Hwf sid).
Qed.

Lemma run_wf ops : registry_wf (world (run ops boot)).
Proof.
  assert (Hgen : ∀ s, registry_wf (world s) → registry_wf (world (run ops s))).
  { induction ops as [|op ops IH]; intros s Hwf; [done|].
    rewrite run_cons. apply IH. by apply sys_step_wf. }
  apply Hgen. intros sid l Hl. simpl in Hl. by rewrite lookup_empty in Hl.
Qed.


End Registry.

Section Streams.

Context `{Runtime}.

(** *** Unfolding a schedule *)

Lemma exec_tick sid evs w g :
  exec sid (Tick :: evs) w g
  = let r := gen_step w g in
    let r' := exec sid evs r.1.1 r.1.2 in
    (r'.1.1, r'.1.2, r.2 ++ r'.2).
Proof.
  simpl. destruct (gen_step w g) as [[w1 g1] o]. simpl.
  by destruct (exec sid evs w1 g1) as [[w2 g2] os].
Qed.

Lemma exec_tick_eq sid evs w g w1 g1 o :
  gen_step w g = (w1, g1, o) →
  exec sid (Tick :: evs) w g
  = ((exec sid evs w1 g1).1.1, (exec sid evs w1 g1).1.2,
     o ++ (exec sid evs w1 g1).2).
Proof. intros Hs. by rewrite exec_tick, Hs. Qed.

Lemma exec_interrupt_ok sid evs w g w1 resp :
  agent_interrupt sid w = Returns (w1, resp) →
  exec sid (Interrupt :: evs) w g
  = let r' := exec sid evs w1 g in (r'.1.1, r'.1.2, Interrupted :: r'.2).
Proof.
  intros Hint. simpl. rewrite Hint.
  by destruct (exec sid evs w1 g) as [[w2 g2] os].
Qed.

Lemma exec_interrupt_raises sid evs w g e :
  agent_interrupt sid w = Raises e →
  exec sid (Interrupt :: evs) w g = exec sid evs w g.
Proof. intros Hint. simpl. by rewrite Hint. Qed.

Lemma agent_interrupt_world sid w w1 resp :
  agent_interrupt sid w = Returns (w1, resp) →
  w1 = w ∨ ∃ l, w1 = write_status l IDLE w.
Proof.
  unfold_api. intros Hint.
  destruct (agent_registry w !! sid) as [[l|]|]; simplify_eq/=; eauto.
Qed.

Lemma emitted_app os1 os2 : emitted (os1 ++ os2) = emitted os1 ++ emitted os2.
Proof.
  induction os1 as [|[p|c|] os1 IH]; simpl; [done|done| |done].
  by rewrite IH.
Qed.

Lemma started_app os1 os2 : started (os1 ++ os2) = started os1 ++ started os2.
Proof.
  induction os1 as [|[p|c|] os1 IH]; simpl; [done| |done|done].
  by rewrite IH.
Qed.

(** *** Facts about one step *)

Lemma gen_step_yak w g : gen_yak (gen_step w g).1.2 = gen_yak g.
Proof. unfold gen_step. by repeat case_match. Qed.

Lemma gen_step_kind w g : gen_kind (gen_step w g).1.2 = gen_kind g.
Proof. unfold gen_step. by repeat case_match. Qed.

Lemma gen_step_voice w g : gen_voice (gen_step w g).1.2 = gen_voice g.
Proof. unfold gen_step. by repeat case_match. Qed.

Lemma gen_step_after_interrupt w g os :
  after_interrupt ((gen_step w g).2 ++ os) = after_interrupt os.
Proof. unfold gen_step. by repeat case_match. Qed.

Lemma gen_step_allocated w g l :
  is_Some (heap (gen_step w g).1.1 !! l) ↔ is_Some (heap w !! l).
Proof.
  destruct (gen_step_world w g) as [->|[_ ->]]; [done|].
  apply write_status_allocated.
Qed.

(** A stream whose agent is not TALKING: what one step spends of its
    remaining budget. *)
Lemma gen_step_quiet w g :
  status_at w (gen_yak g) ≠ Some TALKING →
  status_at (gen_step w g).1.1 (gen_yak (gen_step w g).1.2) ≠ Some TALKING
  ∧ length (emitted (gen_step w g).2) + emit_budget (gen_pc (gen_step w g).1.2)
    ≤ emit_budget (gen_pc g)
  ∧ length (started (gen_step w g).2) + start_budget (gen_pc (gen_step w g).1.2)
    ≤ start_budget (gen_pc g).
Proof.
  intros Hnt. unfold gen_step.
  destruct (gen_pc g) eqn:Hpc; repeat case_match; simpl;
    rewrite ?Hpc; simpl; repeat split; try done; try lia; try congruence.
  by apply not_talking_write_idle.
Qed.

Lemma exec_quiet sid evs w g :
  status_at w (gen_yak g) ≠ Some TALKING →
  length (emitted (exec sid evs w g).2) ≤ emit_budget (gen_pc g)
  ∧ length (started (exec sid evs w g).2) ≤ start_budget (gen_pc g).
Proof.
  revert w g. induction evs as [|[|] evs IH]; intros w g Hnt.
  - simpl. lia.
  - rewrite exec_tick. simpl.
    destruct (gen_step_quiet w g Hnt) as (Hnt1 & Hemit & Hstart).
    destruct (IH _ _ Hnt1) as [IHe IHs].
    rewrite emitted_app, started_app, !length_app. lia.
  - destruct (agent_interrupt sid w) as [[w1 resp]|e] eqn:Hint.
    + rewrite (exec_interrupt_ok _ _ _ _ _ _ Hint). simpl.
      apply IH.
      destruct (agent_interrupt_world _ _ _ _ Hint) as [->|[l ->]]; [done|].
      by apply not_talking_write_idle.
    + rewrite (exec_interrupt_raises _ _ _ _ _ Hint). by apply IH.
Qed.

(** *** A talk request that is accepted *)

Lemma talk_started message phrases w w' g :
  talk_with_agent message phrases w = Returns (w', g)
  ∨ talk_with_avatar message phrases w = Returns (w', g) →
  ∃ l yak,
    agent_registry w !! session_id message = Some (Some l)
    ∧ heap w !! l = Some yak
    ∧ w' = write_status l TALKING w
    ∧ gen_yak g = l ∧ gen_todo g = phrases ∧ gen_pc g = AtFor
    ∧ gen_calls g = 0.
Proof.
  unfold_api. intros [Htalk|Htalk];
    destruct (agent_registry w !! session_id message) as [[l|]|] eqn:Hreg;
    simpl in Htalk; try done;
    destruct (heap w !! l) as [yak|] eqn:Hl; simpl in Htalk; try done;
    simplify_eq/=; exists l, yak; done.
Qed.

Lemma exec_after_interrupt sid evs w g :
  agent_registry w !! sid = Some (Some (gen_yak g)) →
  length (emitted (after_interrupt (exec sid evs w g).2)) ≤ 1
  ∧ length (started (after_interrupt (exec sid evs w g).2)) ≤ 1.
Proof.
  revert w g. induction evs as [|[|] evs IH]; intros w g Hreg.
  - simpl. lia.
  - rewrite exec_tick. simpl. rewrite gen_step_after_interrupt.
    apply IH. by rewrite gen_step_registry, gen_step_yak.
  - rewrite (exec_interrupt_ok _ _ _ _ _ _ (agent_interrupt_existing _ _ _ Hreg)).
    simpl.
    destruct (exec_quiet sid evs (write_status (gen_yak g) IDLE w) g) as [He Hs].
    { unfold status_at, write_status. simpl. rewrite lookup_alter_eq.
      by destruct (heap w !! gen_yak g). }
    destruct (gen_pc g); simpl in *; lia.
Qed.

Lemma exec_registry sid evs w g :
  agent_registry (exec sid evs w g).1.1 = agent_registry w.
Proof.
  revert w g. induction evs as [|[|] evs IH]; intros w g; [done| |].
  - rewrite exec_tick. simpl. by rewrite IH, gen_step_registry.
  - destruct (agent_interrupt sid w) as [[w1 resp]|e] eqn:Hint.
    + rewrite (exec_interrupt_ok _ _ _ _ _ _ Hint). simpl. rewrite IH.
      by destruct (agent_interrupt_world _ _ _ _ Hint) as [->|[l ->]].
    + by rewrite (exec_interrupt_raises _ _ _ _ _ Hint).
Qed.

Lemma exec_yak sid evs w g : gen_yak (exec sid evs w g).1.2 = gen_yak g.
Proof.
  revert w g. induction evs as [|[|] evs IH]; intros w g; [done| |].
  - rewrite exec_tick. simpl. by rewrite IH, gen_step_yak.
  - destruct (agent_interrupt sid w) as [[w1 resp]|e] eqn:Hint.
    + rewrite (exec_interrupt_ok _ _ _ _ _ _ Hint). simpl. apply IH.
    + rewrite (exec_interrupt_raises _ _ _ _ _ Hint). apply IH.
Qed.

Lemma exec_interrupt_in_flight sid evs w g :
  agent_registry w !! sid = Some (Some (gen_yak g)) →
  gen_pc g ≠ AtFor →
  started (exec sid (Interrupt :: evs) w g).2 = [].
Proof.
  intros Hreg Hpc.
  rewrite (exec_interrupt_ok _ _ _ _ _ _ (agent_interrupt_existing _ _ _ Hreg)).
  simpl.
  destruct (exec_quiet sid evs (write_status (gen_yak g) IDLE w) g) as [_ Hs].
  { unfold status_at, write_status. simpl. rewrite lookup_alter_eq.
    by destruct (heap w !! gen_yak g). }
  assert (Hzero : start_budget (gen_pc g) = 0) by (by destruct (gen_pc g)).
  rewrite Hzero in Hs.
  destruct (started _); [done|]. simpl in Hs. lia.
Qed.

(** *** A stream among the other requests of the service *)

Lemma status_at_add_run r l0 l reg hp :
  status_at {| agent_registry := reg; heap := alter (add_run r) l0 hp |} l
  = status_at {| agent_registry := reg; heap := hp |} l.
Proof.
  unfold status_at. simpl. destruct (decide (l0 = l)) as [->|Hne].
  - rewrite lookup_alter_eq. by destruct (hp !! l).
  - by rewrite lookup_alter_ne.
Qed.

Lemma agent_create_quiet db config w l :
  status_at w l ≠ Some TALKING →
  status_at (agent_create db config w).1 l ≠ Some TALKING.
Proof.
  intros Hst. unfold agent_create, alloc, registry_set.
  destruct (build_agent db config) as [[ag|]|e] eqn:Hb; simpl; [|done..].
  unfold status_at. simpl.
  destruct (decide (fresh (dom (heap w)) = l)) as [->|Hne].
  - rewrite lookup_insert_eq. simpl. by rewrite (build_agent_idle _ _ _ Hb).
  - by rewrite lookup_insert_ne.
Qed.

Lemma sys_step_quiet op s l :
  talks_on l op s = false →
  status_at (world s) l ≠ Some TALKING →
  status_at (world (sys_step op s)) l ≠ Some TALKING.
Proof.
  intros Htalk Hst. destruct op; simpl in *.
  - done.
  - by apply agent_create_quiet.
  - destruct (chat_with_agent message llm (world s)) as [[w1 resp]|e] eqn:Hchat;
      [|done]. simpl. unfold_api.
    repeat (case_match; simplify_eq/=); try done.
    destruct (world s) as [reg hp]. simpl. by rewrite status_at_add_run.
  - done.
  - done.
  - apply bool_decide_eq_false_1 in Htalk.
    destruct (talk_with_agent message phrases (world s)) as [[w1 g1]|e] eqn:Ht;
      [|done]. simpl.
    destruct (talk_started _ _ _ _ _ (or_introl Ht))
      as (l1 & yak & Hreg & _ & -> & _).
    rewrite status_at_write_ne; [done|]. congruence.
  - apply bool_decide_eq_false_1 in Htalk.
    destruct (talk_with_avatar message phrases (world s)) as [[w1 g1]|e] eqn:Ht;
      [|done]. simpl.
    destruct (talk_started _ _ _ _ _ (or_intror Ht))
      as (l1 & yak & Hreg & _ & -> & _).
    rewrite status_at_write_ne; [done|]. congruence.
  - destruct (agent_interrupt sid (world s)) as [[w1 resp]|e] eqn:Hint; [|done].
    simpl. destruct (agent_interrupt_world _ _ _ _ Hint) as [->|[l1 ->]]; [done|].
    by apply not_talking_write_idle.
  - destruct (streams s !! i) as [g|]; [|done].
    pose proof (gen_step_world (world s) g) as Hw.
    destruct (gen_step (world s) g) as [[w1 g1] o]. simpl in *.
    destruct Hw as [->|[_ ->]]; [done|]. by apply not_talking_write_idle.
Qed.

Lemma sys_step_next s i g :
  streams s !! i = Some g →
  sys_step (OpNext i) s
  = {| world := (gen_step (world s) g).1.1;
       streams := <[i := (gen_step (world s) g).1.2]> (streams s) |}.
Proof.
  intros Hg. simpl. rewrite Hg.
  by destruct (gen_step (world s) g) as [[w1 g1] o].
Qed.

Lemma sys_step_other op s i g :
  streams s !! i = Some g →
  op = OpNext i
  ∨ (op_obs i op s = [] ∧ streams (sys_step op s) !! i = Some g).
Proof.
  intros Hg. destruct op; simpl; try (right; by split).
  - right. split; [done|]. by destruct (chat_with_agent _ _ _) as [[w1 resp]|e].
  - right. split; [done|].
    destruct (talk_with_agent _ _ _) as [[w1 g1]|e]; [|done]. simpl.
    by apply lookup_app_l_Some.
  - right. split; [done|].
    destruct (talk_with_avatar _ _ _) as [[w1 g1]|e]; [|done]. simpl.
    by apply lookup_app_l_Some.
  - right. split; [done|]. by destruct (agent_interrupt _ _) as [[w1 resp]|e].
  - destruct (decide (i0 = i)) as [->|Hne]; [by left|right].
    rewrite bool_decide_eq_false_2 by done. split; [done|].
    destruct (streams s !! i0) as [g0|]; [|done].
    destruct (gen_step (world s) g0) as [[w1 g1] o]. simpl.
    by rewrite list_lookup_insert_ne.
Qed.

(** A stream whose agent is not TALKING, and is not made TALKING again,
    spends its remaining budget whatever else the service does. *)
Lemma trace_quiet i ops :
  ∀ s g,
    streams s !! i = Some g →
    status_at (world s) (gen_yak g) ≠ Some TALKING →
    no_talk_on (gen_yak g) ops s = true →
    length (emitted (trace i ops s)) ≤ emit_budget (gen_pc g)
    ∧ length (started (trace i ops s)) ≤ start_budget (gen_pc g).
Proof.
  induction ops as [|op ops IH]; intros s g Hg Hst Hno; [simpl; lia|].
  cbn [trace no_talk_on] in *.
  apply andb_prop in Hno as [Htalk Hno]. apply negb_true_iff in Htalk.
  rewrite emitted_app, started_app, !length_app.
  destruct (sys_step_other op s i g Hg) as [->|[Hobs Hstream]].
  - rewrite sys_step_next with (g := g) in * by done.
    unfold op_obs. rewrite bool_decide_eq_true_2, Hg by done.
    destruct (gen_step_quiet (world s) g Hst) as (Hst1 & Hemit & Hstart).
    destruct (IH {| world := (gen_step (world s) g).1.1;
                    streams := <[i := (gen_step (world s) g).1.2]> (streams s) |}
                 (gen_step (world s) g).1.2) as [IHe IHs].
    + simpl. apply list_lookup_insert_eq. by eapply lookup_lt_Some.
    + exact Hst1.
    + by rewrite gen_step_yak.
    + lia.
  - rewrite Hobs. simpl.
    apply (IH (sys_step op s) g); [done| |done].
    by apply sys_step_quiet.
Qed.

(** C1, as amended.  The status is tested after each chunk has been handed
    over, not before a synthesis is committed to.  Take a stream of
    [talk_with_agent] or [talk_with_avatar] that is with the transport,
    and an interrupt request for a session id that is bound to the agent
    the stream was started on.  Whatever the service serves afterwards
    (steps of this and of other streams, interrupts, reservations, agent
    creations, chats), as long as it accepts no talk request for that
    agent, the stream starts at most one more synthesis and emits at most
    one more chunk; and when the interrupt is served while a synthesis is
    in flight or its chunk is at the [yield], the stream starts no
    synthesis any more. *)
Theorem interrupt_allows_one_more_chunk (s : Sys) (i : nat) (g : StreamGen)
    (sid : string) (ops : list Op) :
  streams s !! i = Some g →
  agent_registry (world s) !! sid = Some (Some (gen_yak g)) →
  no_talk_on (gen_yak g) ops (sys_step (OpInterrupt sid) s) = true →
  length (emitted (trace i ops (sys_step (OpInterrupt sid) s))) ≤ 1
  ∧ length (started (trace i ops (sys_step (OpInterrupt sid) s))) ≤ 1
  ∧ (gen_pc g ≠ AtFor →
     started (trace i ops (sys_step (OpInterrupt sid) s)) = []).
Proof.
  intros Hg Hreg Hno.
  assert (Hstep : sys_step (OpInterrupt sid) s
                  = {| world := write_status (gen_yak g) IDLE (world s);
                       streams := streams s |}).
  { simpl. by rewrite (agent_interrupt_existing _ _ _ Hreg). }
  rewrite Hstep in *.
  destruct (trace_quiet i ops
              {| world := write_status (gen_yak g) IDLE (world s);
                 streams := streams s |} g) as [Hemit Hstart]; [done| |done|].
  { simpl. unfold status_at, write_status. simpl. rewrite lookup_alter_eq.
    by destruct (heap (world s) !! gen_yak g). }
  split; [destruct (gen_pc g); simpl in Hemit; lia|].
  split; [destruct (gen_pc g); simpl in Hstart; lia|].
  intros Hpc.
  assert (Hzero : start_budget (gen_pc g) = 0) by (by destruct (gen_pc g)).
  rewrite Hzero in Hstart.
  destruct (started _); [done|]. simpl in Hstart. lia.
Qed.

(** *** How a stream ends *)

Lemma gen_step_finished w g :
  is_Some (heap w !! gen_yak g) →
  (gen_pc g = Finished → status_at w (gen_yak g) = Some IDLE) →
  gen_pc (gen_step w g).1.2 = Finished →
  status_at (gen_step w g).1.1 (gen_yak g) = Some IDLE.
Proof.
  intros Halloc Hinv. unfold gen_step.
  destruct (gen_pc g) eqn:Hpc; repeat case_match; simpl; rewrite ?Hpc;
    try done; intros _.
  by apply status_at_write_eq.
Qed.

Lemma exec_finished_idle sid evs w g :
  is_Some (heap w !! gen_yak g) →
  (gen_pc g = Finished → status_at w (gen_yak g) = Some IDLE) →
  gen_pc (exec sid evs w g).1.2 = Finished →
  status_at (exec sid evs w g).1.1 (gen_yak g) = Some IDLE.
Proof.
  revert w g. induction evs as [|[|] evs IH]; intros w g Halloc Hinv.
  - simpl. done.
  - rewrite exec_tick. simpl. intros Hfin.
    rewrite <- (gen_step_yak w g). apply IH; [| |done].
    + rewrite gen_step_yak. by apply gen_step_allocated.
    + rewrite gen_step_yak. by apply gen_step_finished.
  - destruct (agent_interrupt sid w) as [[w1 resp]|e] eqn:Hint.
    + rewrite (exec_interrupt_ok _ _ _ _ _ _ Hint). simpl.
      destruct (agent_interrupt_world _ _ _ _ Hint) as [->|[l ->]];
        [by apply IH|].
      apply IH.
      * by apply write_status_allocated.
      * intros Hfin. destruct (decide (l = gen_yak g)) as [->|Hne].
        -- by apply status_at_write_eq.
        -- rewrite status_at_write_ne by done. by apply Hinv.
    + rewrite (exec_interrupt_raises _ _ _ _ _ Hint). by apply IH.
Qed.

Lemma gen_step_sound w g :
  sound w g →
  sound (gen_step w g).1.1 (gen_step w g).1.2
  ∧ steps_left (gen_step w g).1.2 ≤ pred (steps_left g).
Proof.
  intros (Halloc & Hsyn & Hpc).
  assert (Hstat : status_at w (gen_yak g) ≠ None).
  { unfold status_at. by destruct Halloc as [a ->]. }
  unfold sound, steps_left, pending, gen_step, synthesize_next in *.
  destruct (gen_pc g) eqn:Hg.
  - destruct (gen_todo g) as [|p rest] eqn:Htodo; simpl.
    + split; [|lia]. split; [done|]. split; [|done].
      intros i q Hq. by rewrite lookup_nil in Hq.
    + split; [|lia]. split; [done|]. split; [|done].
      intros i q Hq. by apply Hsyn.
  - destruct (Hsyn 0 phrase) as [c Hc]; [done|].
    rewrite Nat.add_0_r in Hc. rewrite Hc. simpl.
    split; [|lia]. split; [done|]. split; [|done].
    intros i q Hq.
    replace (S (gen_calls g + i)) with (gen_calls g + S i) by lia.
    by apply Hsyn.
  - destruct (status_at w (gen_yak g)) as [[]|] eqn:Hs; simpl; [| |done].
    + split; [|lia]. split; [done|]. split; [|done].
      intros i q Hq. by rewrite lookup_nil in Hq.
    + split; [|lia]. split; [done|]. split; [|done].
      intros i q Hq. by apply Hsyn.
  - simpl. split; [|lia]. split; [by apply write_status_allocated|].
    split; [|done]. intros i q Hq. by rewrite lookup_nil in Hq.
  - simpl. rewrite Hg. split; [|lia]. split; [done|]. split; [|done].
    intros i q Hq. by rewrite lookup_nil in Hq.
  - by destruct (Hpc e).
Qed.

Lemma exec_finishes sid evs w g :
  sound w g → steps_left g ≤ ticks evs →
  gen_pc (exec sid evs w g).1.2 = Finished.
Proof.
  revert w g. induction evs as [|[|] evs IH]; intros w g Hsound Hsteps.
  - simpl in *. destruct Hsound as (_ & _ & Hpc).
    unfold steps_left in Hsteps. destruct (gen_pc g) eqn:Hg; try lia; [done|].
    by destruct (Hpc e).
  - rewrite exec_tick. simpl in *.
    destruct (gen_step_sound w g Hsound) as [Hsound1 Hless].
    apply IH; [done|lia].
  - destruct (agent_interrupt sid w) as [[w1 resp]|e] eqn:Hint.
    + rewrite (exec_interrupt_ok _ _ _ _ _ _ Hint). simpl in *.
      apply IH; [|done].
      destruct (agent_interrupt_world _ _ _ _ Hint) as [->|[l ->]]; [done|].
      destruct Hsound as (Halloc & Hsyn & Hpc).
      repeat split; try done. by apply write_status_allocated.
    + rewrite (exec_interrupt_raises _ _ _ _ _ Hint). by apply IH.
Qed.

(** C2, as amended.  Whenever the generator of [talk_with_agent] or
    [talk_with_avatar] returns, by exhaustion of the phrases or after an
    observed interrupt, the status of its agent is IDLE; and when no
    synthesis raises, the generator does return, within [3 n + 2] steps
    for [n] phrases, under every schedule. *)
Theorem stream_return_resets_idle (message : ApiUserMessage)
    (phrases : list string) (w w' : World) (g : StreamGen) (evs : list Event) :
  talk_with_agent message phrases w = Returns (w', g)
  ∨ talk_with_avatar message phrases w = Returns (w', g) →
  (gen_pc (exec (session_id message) evs w' g).1.2 = Finished →
   status_at (exec (session_id message) evs w' g).1.1 (gen_yak g) = Some IDLE)
  ∧ ((∀ i p, phrases !! i = Some p →
        ∃ c, synthesize (gen_kind g) (gen_voice g) i p = Returns c) →
     3 * length phrases + 2 ≤ ticks evs →
     gen_pc (exec (session_id message) evs w' g).1.2 = Finished
     ∧ status_at (exec (session_id message) evs w' g).1.1 (gen_yak g) = Some IDLE).
Proof.
  intros Htalk.
  destruct (talk_started _ _ _ _ _ Htalk)
    as (l & yak & Hreg & Hl & -> & Hyak & Htodo & Hpc & Hcalls).
  assert (Halloc : is_Some (heap (write_status l TALKING w) !! gen_yak g)).
  { rewrite Hyak. apply write_status_allocated. by eexists. }
  assert (Hret : gen_pc (exec (session_id message) evs (write_status l TALKING w) g).1.2
                 = Finished →
                 status_at (exec (session_id message) evs (write_status l TALKING w) g).1.1
                   (gen_yak g) = Some IDLE).
  { apply exec_finished_idle; [done|]. by rewrite Hpc. }
  split; [exact Hret|].
  intros Hsyn Hticks.
  assert (Hfin : gen_pc (exec (session_id message) evs (write_status l TALKING w) g).1.2
                 = Finished).
  { apply exec_finishes.
    - repeat split; [done| |by rewrite Hpc].
      unfold pending. rewrite Hpc, Htodo, Hcalls. exact Hsyn.
    - unfold steps_left. by rewrite Hpc, Htodo. }
  split; [exact Hfin|]. by apply Hret.
Qed.

(** *** A synthesis that raises *)

Lemma gen_step_pull w g p rest :
  gen_pc g = AtFor → gen_todo g = p :: rest →
  gen_step w g
  = (w, with_pc (Synthesizing p) (with_todo rest g), [SynthStart p]).
Proof. intros Hpc Htodo. unfold gen_step. by rewrite Hpc, Htodo. Qed.

Lemma gen_step_emit w g p c :
  gen_pc g = Synthesizing p → synthesize_next g p = Returns c →
  gen_step w g = (w, with_pc AtYield (count_call g), [Emit c]).
Proof. intros Hpc Hsyn. unfold gen_step. by rewrite Hpc, Hsyn. Qed.

Lemma gen_step_raise w g p e :
  gen_pc g = Synthesizing p → synthesize_next g p = Raises e →
  gen_step w g = (w, with_pc (Raised e) g, []).
Proof. intros Hpc Hsyn. unfold gen_step. by rewrite Hpc, Hsyn. Qed.

Lemma gen_step_continue w g :
  gen_pc g = AtYield → status_at w (gen_yak g) = Some TALKING →
  gen_step w g = (w, with_pc AtFor g, []).
Proof. intros Hpc Hst. unfold gen_step. by rewrite Hpc, Hst. Qed.

Lemma exec_raised_stays sid n w g e :
  gen_pc g = Raised e → exec sid (replicate n Tick) w g = (w, g, []).
Proof.
  intros Hpc. induction n as [|n IH]; [done|].
  change (replicate (S n) Tick) with (Tick :: replicate n Tick).
  rewrite exec_tick. unfold gen_step. rewrite Hpc. simpl. by rewrite IH.
Qed.

Lemma chunks_from_cons kind voice call q ps cs :
  chunks_from kind voice call (q :: ps) = Returns cs →
  ∃ c cs', synthesize kind voice call q = Returns c
           ∧ chunks_from kind voice (S call) ps = Returns cs'
           ∧ cs = c :: cs'.
Proof.
  simpl. unfold mbind, Result_bind.
  destruct (synthesize kind voice call q) as [c|]; [|done].
  destruct (chunks_from kind voice (S call) ps) as [cs'|]; [|done].
  intros [= <-]. by exists c, cs'.
Qed.

Lemma chunks_from_length kind voice ps :
  ∀ call cs, chunks_from kind voice call ps = Returns cs → length cs = length ps.
Proof.
  induction ps as [|q ps IH]; intros call cs Hcs.
  - by injection Hcs as <-.
  - destruct (chunks_from_cons _ _ _ _ _ _ Hcs) as (c & cs' & _ & Hcs' & ->).
    simpl. by rewrite (IH (S call) cs').
Qed.

Lemma ticks_to_failure sid pre :
  ∀ g w n cs p post e,
    gen_pc g = AtFor → gen_todo g = pre ++ p :: post →
    status_at w (gen_yak g) = Some TALKING →
    chunks_of g pre = Returns cs →
    synthesize (gen_kind g) (gen_voice g) (gen_calls g + length pre) p = Raises e →
    3 * length pre + 2 ≤ n →
    gen_pc (exec sid (replicate n Tick) w g).1.2 = Raised e
    ∧ emitted (exec sid (replicate n Tick) w g).2 = cs
    ∧ (exec sid (replicate n Tick) w g).1.1 = w.
Proof.
  induction pre as [|q pre IH]; intros g w n cs p post e Hpc Htodo Hst Hcs Hp Hn.
  - injection Hcs as <-. simpl in Hp. rewrite Nat.add_0_r in Hp.
    destruct n as [|[|n]]; simpl in Hn; try lia.
    change (replicate (S (S n)) Tick) with (Tick :: Tick :: replicate n Tick).
    rewrite (exec_tick_eq _ _ _ _ _ _ _ (gen_step_pull w g p post Hpc Htodo)).
    rewrite (exec_tick_eq _ _ _ _ _ _ _
               (gen_step_raise w (with_pc (Synthesizing p) (with_todo post g))
                  p e eq_refl Hp)).
    by rewrite (exec_raised_stays sid n w _ e).
  - destruct (chunks_from_cons _ _ _ _ _ _ Hcs) as (c & cs' & Hq & Hcs' & ->).
    destruct n as [|[|[|n]]]; simpl in Hn; try lia.
    change (replicate (S (S (S n))) Tick)
      with (Tick :: Tick :: Tick :: replicate n Tick).
    set (g1 := with_pc (Synthesizing q) (with_todo (pre ++ p :: post) g)).
    rewrite (exec_tick_eq _ _ _ _ _ _ _
               (gen_step_pull w g q (pre ++ p :: post) Hpc Htodo)).
    rewrite (exec_tick_eq _ _ _ _ _ _ _ (gen_step_emit w g1 q c eq_refl Hq)).
    rewrite (exec_tick_eq _ _ _ _ _ _ _
               (gen_step_continue w (with_pc AtYield (count_call g1)) eq_refl Hst)).
    destruct (IH (with_pc AtFor (with_pc AtYield (count_call g1))) w n cs' p post e)
      as (Hfin & Hemit & Hw); try done.
    { simpl. simpl in Hp. by rewrite <- Nat.add_succ_r. }
    { lia. }
    cbn [fst snd app emitted]. by rewrite Hfin, Hemit, Hw.
Qed.

(** C3, as amended.  When the synthesis of phrase [k] raises, the stream of
    [talk_with_agent] or [talk_with_avatar] has emitted the chunks of the
    phrases before it, in order, and ends with that exception: [k - 1]
    chunks, none for phrase [k] and none for the phrases after it. *)
Theorem synthesis_failure_ends_stream (message : ApiUserMessage)
    (pre post : list string) (p : string) (cs : list Chunk) (e : PyExn)
    (w w' : World) (g : StreamGen) (n : nat) :
  talk_with_agent message (pre ++ p :: post) w = Returns (w', g)
  ∨ talk_with_avatar message (pre ++ p :: post) w = Returns (w', g) →
  chunks_of g pre = Returns cs →
  synthesize (gen_kind g) (gen_voice g) (length pre) p = Raises e →
  3 * length pre + 2 ≤ n →
  gen_pc (exec (session_id message) (replicate n Tick) w' g).1.2 = Raised e
  ∧ emitted (exec (session_id message) (replicate n Tick) w' g).2 = cs
  ∧ length cs = length pre.
Proof.
  intros Htalk Hcs Hp Hn.
  destruct (talk_started _ _ _ _ _ Htalk)
    as (l & yak & Hreg & Hl & -> & Hyak & Htodo & Hpc & Hcalls).
  destruct (ticks_to_failure (session_id message) pre g
              (write_status l TALKING w) n cs p post e)
    as (Hfin & Hemit & _); try done.
  - rewrite Hyak. apply status_at_write_eq. by eexists.
  - by rewrite Hcalls.
  - split; [done|]. split; [done|]. by apply chunks_from_length in Hcs.
Qed.

(** *** Order of the chunks *)

Lemma gen_step_pending w g :
  (emitted (gen_step w g).2 = []
   ∧ gen_calls (gen_step w g).1.2 = gen_calls g
   ∧ (pending (gen_step w g).1.2 = pending g ∨ pending (gen_step w g).1.2 = []))
  ∨ (∃ p c, pending g = p :: pending (gen_step w g).1.2
            ∧ synthesize_next g p = Returns c
            ∧ gen_calls (gen_step w g).1.2 = S (gen_calls g)
            ∧ emitted (gen_step w g).2 = [c]).
Proof.
  unfold gen_step, pending.
  destruct (gen_pc g) eqn:Hpc; simpl; rewrite ?Hpc;
    [ destruct (gen_todo g)
    | destruct (synthesize_next g phrase) eqn:Hsyn
    | destruct (status_at w (gen_yak g)) as [[]|]
    | | | ];
    simpl; rewrite ?Hpc; eauto 10.
Qed.

Lemma exec_prefix sid evs w g :
  ∃ k, chunks_of g (take k (pending g))
       = Returns (emitted (exec sid evs w g).2).
Proof.
  revert w g. induction evs as [|[|] evs IH]; intros w g.
  - by exists 0.
  - rewrite exec_tick. cbn [fst snd]. rewrite emitted_app.
    destruct (IH (gen_step w g).1.1 (gen_step w g).1.2) as [k Hk].
    unfold chunks_of in *. rewrite gen_step_kind, gen_step_voice in Hk.
    destruct (gen_step_pending w g)
      as [(He & Hc & [Hp|Hp])|(p & c & Hp & Hs & Hc & He)];
      rewrite He, Hc in *; simpl.
    + exists k. by rewrite <- Hp.
    + exists 0. rewrite Hp, take_nil in Hk. by rewrite <- Hk.
    + exists (S k). rewrite Hp. simpl. unfold mbind, Result_bind.
      unfold synthesize_next in Hs. by rewrite Hs, Hk.
  - destruct (agent_interrupt sid w) as [[w1 resp]|e] eqn:Hint.
    + rewrite (exec_interrupt_ok _ _ _ _ _ _ Hint). simpl. apply IH.
    + rewrite (exec_interrupt_raises _ _ _ _ _ Hint). apply IH.
Qed.

Lemma take_length_take {A} (k : nat) (l : list A) :
  take (length (take k l)) l = take k l.
Proof.
  rewrite length_take. destruct (decide (k ≤ length l)).
  - by rewrite Nat.min_l.
  - rewrite Nat.min_r by lia. by rewrite firstn_all, take_ge by lia.
Qed.

(** C7.  Under every schedule, the chunks a stream of [talk_with_agent] or
    [talk_with_avatar] has emitted are the chunks of the first phrases of
    the agent's text, one per phrase and in the order of the phrases:
    nothing is reordered, repeated or emitted ahead of an earlier
    phrase. *)
Theorem chunks_follow_phrase_order (message : ApiUserMessage)
    (phrases : list string) (w w' : World) (g : StreamGen) (evs : list Event) :
  talk_with_agent message phrases w = Returns (w', g)
  ∨ talk_with_avatar message phrases w = Returns (w', g) →
  chunks_of g
    (take (length (emitted (exec (session_id message) evs w' g).2)) phrases)
  = Returns (emitted (exec (session_id message) evs w' g).2).
Proof.
  intros Htalk.
  destruct (talk_started _ _ _ _ _ Htalk)
    as (l & yak & Hreg & Hl & -> & Hyak & Htodo & Hpc & Hcalls).
  destruct (exec_prefix (session_id message) evs (write_status l TALKING w) g)
    as [k Hk].
  unfold pending in Hk. rewrite Hpc, Htodo in Hk.
  rewrite (chunks_from_length _ _ _ _ _ Hk), take_length_take. exact Hk.
Qed.

End Streams.

(** ** The properties on the concrete setting *)

#[local] Existing Instance demo_runtime.

Lemma talk_hello phrases :
  talk_with_agent hello phrases w0 = Returns (w_talking, stream_of phrases).
Proof. vm_compute. reflexivity. Qed.

Lemma agent_interrupt_idempotent_witness :
  ∃ w1,
    agent_interrupt "s1" w_talking
    = Returns (w1, StdResponse true "OK" "Interrupted")
    ∧ status <$> session_agent w1 "s1" = Some IDLE
    ∧ agent_interrupt "s1" w1 = Returns (w1, StdResponse true "OK" "Interrupted")
    ∧ (status (set_status TALKING kim) = IDLE → w1 = w_talking).
Proof.
  apply (agent_interrupt_idempotent w_talking "s1" (set_status TALKING kim)).
  vm_compute. reflexivity.
Defined.

Lemma unknown_session_is_hard_error_witness :
  agent_registry (world (run [OpReserve "s0"; OpInterrupt "s0"] boot)) !! "nobody" = None
  ∧ fails_SessionNotFound "nobody"
      (chat_with_agent (mkMessage "nobody" "hi") ["Hello."]
         (world (run [OpReserve "s0"; OpInterrupt "s0"] boot)))
  ∧ fails_SessionNotFound "nobody"
      (talk_with_agent (mkMessage "nobody" "hi") ["Hello."]
         (world (run [OpReserve "s0"; OpInterrupt "s0"] boot)))
  ∧ fails_SessionNotFound "nobody"
      (talk_with_avatar (mkMessage "nobody" "hi") ["Hello."]
         (world (run [OpReserve "s0"; OpInterrupt "s0"] boot)))
  ∧ fails_SessionNotFound "nobody"
      (get_agent_to_say (mkMessage "nobody" "hi")
         (world (run [OpReserve "s0"; OpInterrupt "s0"] boot)))
  ∧ fails_SessionNotFound "nobody"
      (get_last_response "nobody" (world (run [OpReserve "s0"; OpInterrupt "s0"] boot)))
  ∧ fails_SessionNotFound "nobody"
      (agent_interrupt "nobody" (world (run [OpReserve "s0"; OpInterrupt "s0"] boot))).
Proof.
  apply (unknown_session_is_hard_error [OpReserve "s0"; OpInterrupt "s0"]
           "nobody" "hi" ["Hello."] ["Hello."]).
  vm_compute. reflexivity.
Defined.

Lemma reserved_session_behaviour_witness :
  agent_registry (world (run [bad_create] (sys_step (OpReserve "s0") boot))) !! "s0"
  = Some None
  ∧ agent_interrupt "s0" (world (run [bad_create] (sys_step (OpReserve "s0") boot)))
    = Returns (world (run [bad_create] (sys_step (OpReserve "s0") boot)),
               StdResponse true "OK" "Interrupted").
Proof.
  destruct (reserved_session_behaviour boot "s0" "hi" [bad_create] ["Hello."] ["Hello."])
    as (Hreg & _ & _ & _ & _ & _ & _ & Hint).
  - vm_compute. reflexivity.
  - split; [exact Hreg | exact Hint].
Defined.


(** C1, as stated, fails: the interrupt is served while the second phrase
    has not been started; its synthesis starts afterwards and its chunk is
    emitted. *)
Lemma interrupt_contract_fails :
  talk_with_agent hello ["a"; "b"; "c"] w0
  = Returns (w_talking, stream_of ["a"; "b"; "c"])
  ∧ (exec "s1" late_interrupt w_talking (stream_of ["a"; "b"; "c"])).2
    = [SynthStart "a"; Emit (mkChunk "a" "a"); Interrupted;
       SynthStart "b"; Emit (mkChunk "b" "b")]
  ∧ ¬ interrupt_contract
        (exec "s1" late_interrupt w_talking (stream_of ["a"; "b"; "c"])).2.
Proof.
  split; [apply talk_hello|].
  split; [vm_compute; reflexivity|].
  unfold interrupt_contract. vm_compute. discriminate.
Qed.

Lemma interrupt_allows_one_more_chunk_witness :
  let ops := [OpNext 0; OpReserve "s9"; OpNext 0; OpInterrupt "s0";
              OpNext 0; OpNext 0; OpNext 0] in
  length (emitted (trace 0 ops (sys_step (OpInterrupt "s1") sys_talking))) ≤ 1
  ∧ length (started (trace 0 ops (sys_step (OpInterrupt "s1") sys_talking))) ≤ 1
  ∧ (gen_pc (stream_of ["a"; "b"; "c"]) ≠ AtFor →
     started (trace 0 ops (sys_step (OpInterrupt "s1") sys_talking)) = []).
Proof.
  apply (interrupt_allows_one_more_chunk sys_talking 0
           (stream_of ["a"; "b"; "c"]) "s1"
           [OpNext 0; OpReserve "s9"; OpNext 0; OpInterrupt "s0";
            OpNext 0; OpNext 0; OpNext 0]).
  - reflexivity.
  - vm_compute. reflexivity.
  - vm_compute. reflexivity.
Defined.

(** Why the talk requests are excepted: both endpoints write TALKING
    without looking at the status, so a talk request accepted after the
    interrupt lets the stream that was interrupted run on to its last
    phrase. *)
Example talk_after_interrupt_resumes :
  started (trace 0 (OpTalkAgent hello [] :: replicate 12 (OpNext 0))
             (sys_step (OpInterrupt "s1") sys_talking))
  = ["a"; "b"; "c"].
Proof. vm_compute. reflexivity. Qed.

(** Why the session id has to be bound to the stream's agent: once
    [agent_create] has bound it to a new agent, the interrupt is served
    to that one and the stream runs on. *)
Example interrupt_after_create_misses :
  started (trace 0 (OpInterrupt "s1" :: replicate 12 (OpNext 0))
             (sys_step (OpCreate db_two
                          (mkSessionStart "cafe-1" "m1" "s1" None true))
                sys_talking))
  = ["a"; "b"; "c"].
Proof. vm_compute. reflexivity. Qed.

(** The scenario of the specification: the status is forced to IDLE after
    the synthesis of the first phrase has been dispatched and before the
    status is tested; exactly one chunk is emitted, then the status is
    IDLE. *)
Example interrupt_while_synthesizing :
  emitted (exec "s1" [Tick; Interrupt; Tick; Tick; Tick; Tick] w_talking
             (stream_of ["a"; "b"; "c"])).2 = [mkChunk "a" "a"]
  ∧ gen_pc (exec "s1" [Tick; Interrupt; Tick; Tick; Tick; Tick] w_talking
              (stream_of ["a"; "b"; "c"])).1.2 = Finished
  ∧ status_at (exec "s1" [Tick; Interrupt; Tick; Tick; Tick; Tick] w_talking
                 (stream_of ["a"; "b"; "c"])).1.1 0 = Some IDLE.
Proof. vm_compute. done. Qed.

(** C2, as stated, fails: the synthesis of the second phrase raises, the
    generator is over, and the status is still TALKING. *)
Lemma raise_leaves_talking :
  talk_with_agent hello ["a"; "(static)"; "c"] w0
  = Returns (w_talking, stream_of ["a"; "(static)"; "c"])
  ∧ stream_over
      (exec "s1" (replicate 12 Tick) w_talking (stream_of ["a"; "(static)"; "c"])).1.2
  ∧ status_at
      (exec "s1" (replicate 12 Tick) w_talking (stream_of ["a"; "(static)"; "c"])).1.1
      0 = Some TALKING
  ∧ status_at
      (exec "s1" (replicate 12 Tick) w_talking (stream_of ["a"; "(static)"; "c"])).1.1
      0 ≠ Some IDLE.
Proof.
  split; [apply talk_hello|].
  split; [right; eexists; vm_compute; reflexivity|].
  split; [vm_compute; reflexivity|].
  vm_compute. discriminate.
Qed.

Lemma stream_return_resets_idle_witness :
  gen_pc (exec "s1" late_interrupt w_talking (stream_of ["a"; "b"; "c"])).1.2 = Finished
  ∧ status_at (exec "s1" late_interrupt w_talking (stream_of ["a"; "b"; "c"])).1.1 0
    = Some IDLE
  ∧ gen_pc (exec "s1" (replicate 11 Tick) w_talking (stream_of ["a"; "b"; "c"])).1.2
    = Finished
  ∧ status_at (exec "s1" (replicate 11 Tick) w_talking (stream_of ["a"; "b"; "c"])).1.1 0
    = Some IDLE.
Proof.
  destruct (stream_return_resets_idle hello ["a"; "b"; "c"] w0 w_talking
              (stream_of ["a"; "b"; "c"]) late_interrupt) as [Hret _].
  { left. vm_compute. reflexivity. }
  destruct (stream_return_resets_idle hello ["a"; "b"; "c"] w0 w_talking
              (stream_of ["a"; "b"; "c"]) (replicate 11 Tick)) as [_ Hrun].
  { left. vm_compute. reflexivity. }
  split; [vm_compute; reflexivity|].
  split; [apply Hret; vm_compute; reflexivity|].
  apply Hrun.
  - intros i p Hp.
    destruct i as [|[|[|i]]]; simpl in Hp; [| | |done];
      injection Hp as <-; eexists; vm_compute; reflexivity.
  - vm_compute. lia.
Defined.

(** C3, as stated, fails: of three phrases the synthesis of the second, and
    of it alone, raises; one chunk is emitted, not two, and none for the
    third phrase. *)
Lemma failure_drops_later_phrases :
  talk_with_agent hello ["a"; "(static)"; "c"] w0
  = Returns (w_talking, stream_of ["a"; "(static)"; "c"])
  ∧ synthesize AgentStream "en-AU-KimNeural" 0 "a" = Returns (mkChunk "a" "a")
  ∧ synthesize AgentStream "en-AU-KimNeural" 1 "(static)"
    = Raises (BackendError "synthesis failed")
  ∧ synthesize AgentStream "en-AU-KimNeural" 2 "c" = Returns (mkChunk "c" "c")
  ∧ emitted (exec "s1" (replicate 12 Tick) w_talking
               (stream_of ["a"; "(static)"; "c"])).2 = [mkChunk "a" "a"]
  ∧ length (emitted (exec "s1" (replicate 12 Tick) w_talking
                       (stream_of ["a"; "(static)"; "c"])).2)
    ≠ length ["a"; "(static)"; "c"] - 1.
Proof.
  split; [apply talk_hello|].
  repeat (split; [vm_compute; reflexivity|]).
  vm_compute. discriminate.
Qed.

Lemma synthesis_failure_ends_stream_witness :
  gen_pc (exec "s1" (replicate 12 Tick) w_talking
            (stream_of (["a"] ++ "(static)" :: ["c"]))).1.2
  = Raised (BackendError "synthesis failed")
  ∧ emitted (exec "s1" (replicate 12 Tick) w_talking
               (stream_of (["a"] ++ "(static)" :: ["c"]))).2 = [mkChunk "a" "a"]
  ∧ length [mkChunk "a" "a"] = length ["a"].
Proof.
  apply (synthesis_failure_ends_stream hello ["a"] ["c"] "(static)"
           [mkChunk "a" "a"] (BackendError "synthesis failed") w0 w_talking
           (stream_of (["a"] ++ "(static)" :: ["c"])) 12).
  - left. vm_compute. reflexivity.
  - vm_compute. reflexivity.
  - vm_compute. reflexivity.
  - vm_compute. lia.
Defined.

Lemma chunks_follow_phrase_order_witness :
  chunks_of (stream_of ["a"; "b"; "c"])
    (take (length (emitted (exec "s1" late_interrupt w_talking
                              (stream_of ["a"; "b"; "c"])).2)) ["a"; "b"; "c"])
  = Returns (emitted (exec "s1" late_interrupt w_talking (stream_of ["a"; "b"; "c"])).2).
Proof.
  apply (chunks_follow_phrase_order hello ["a"; "b"; "c"] w0 w_talking
           (stream_of ["a"; "b"; "c"]) late_interrupt).
  left. vm_compute. reflexivity.
Defined.

End ChatFacts.

(** * Further properties of mongodb_helper.py *)

Module MongoExtra.
Import MongoHelper Scenario.
#[local] Open Scope nat_scope.

(** *** Searching and updating the list of documents *)

Lemma find_split {A} (f : A → bool) (l : list A) (x : A) :
  find f l = Some x →
  ∃ pre post, l = pre ++ x :: post ∧ f x = true ∧ ∀ y, y ∈ pre → f y = false.
Proof.
  induction l as [|a l IH]; simpl; [done|].
  destruct (f a) eqn:Hfa.
  - intros [= ->]. exists [], l. split; [done|]. split; [done|].
    intros y Hy. by apply elem_of_nil in Hy.
  - intros Hfind. destruct (IH Hfind) as (pre & post & -> & Hx & Hpre).
    exists (a :: pre), post. split; [done|]. split; [done|].
    intros y [->|Hy]%elem_of_cons; auto.
Qed.

Lemma find_skip {A} (f : A → bool) (pre l : list A) :
  (∀ y, y ∈ pre → f y = false) → find f (pre ++ l) = find f l.
Proof.
  induction pre as [|a pre IH]; intros Hpre; simpl; [done|].
  rewrite (Hpre a) by left. apply IH. intros y Hy. apply Hpre. by right.
Qed.

Lemma find_replace {A} (f : A → bool) (pre post : list A) (c c' : A) :
  f c' = false → f c = false →
  find f (pre ++ c' :: post) = find f (pre ++ c :: post).
Proof.
  intros Hc' Hc. induction pre as [|a pre IH]; simpl.
  - by rewrite Hc, Hc'.
  - by rewrite IH.
Qed.

Lemma find_snoc_false {A} (f : A → bool) (l : list A) (x : A) :
  f x = false → find f (l ++ [x]) = find f l.
Proof.
  intros Hx. induction l as [|a l IH]; simpl.
  - by rewrite Hx.
  - by rewrite IH.
Qed.

Lemma find_none_iff {A} (f : A → bool) (l : list A) :
  find f l = None ↔ ∀ y, y ∈ l → f y = false.
Proof.
  induction l as [|a l IH]; simpl.
  - split; [|done]. intros _ y Hy. by apply elem_of_nil in Hy.
  - destruct (f a) eqn:Hfa.
    + split; [done|]. intros Hall. rewrite (Hall a) in Hfa by left. done.
    + rewrite IH. split.
      * intros Hall y [->|Hy]%elem_of_cons; auto.
      * intros Hall y Hy. apply Hall. by right.
Qed.

Lemma has_menu_iff mid c :
  has_menu mid c = true ↔ ∃ m, m ∈ menus c ∧ menu_id m = mid.
Proof.
  unfold has_menu. rewrite existsb_exists. split.
  - intros (m & Hin & Hid). exists m. split; [by apply list_elem_of_In|].
    by apply bool_decide_eq_true_1 in Hid.
  - intros (m & Hin & Hid). exists m. split; [by apply list_elem_of_In|].
    by apply bool_decide_eq_true_2.
Qed.

Lemma matches_uid uid crit c : matches uid crit c = true → business_uid c = uid.
Proof.
  unfold matches. intros [Huid _]%andb_prop. by apply bool_decide_eq_true_1 in Huid.
Qed.

Lemma matches_other uid uid' crit c :
  business_uid c = uid → uid' ≠ uid → matches uid' crit c = false.
Proof.
  intros Hc Hne. unfold matches.
  rewrite bool_decide_eq_false_2; [done|]. congruence.
Qed.

(** X1.  [get_one_menu] answers with a menu that carries the requested id
    and is stored in a cafe document of the requested business; it
    answers [None] exactly when no document of the business holds a menu
    with that id. *)
Theorem get_one_menu_spec (db : DatabaseConfig) (uid mid : string) :
  match get_one_menu db uid mid with
  | Some m =>
      menu_id m = mid
      ∧ ∃ c, c ∈ cafes db ∧ business_uid c = uid ∧ m ∈ menus c
  | None =>
      ∀ c m, c ∈ cafes db → business_uid c = uid → m ∈ menus c →
             menu_id m ≠ mid
  end.
Proof.
  unfold get_one_menu, get_cafe, find_one.
  destruct (find (matches uid (Some mid)) (cafes db)) as [c|] eqn:Hc.
  - destruct (find_split _ _ _ Hc) as (pre & post & Hdb & Hm & _).
    pose proof (matches_uid _ _ _ Hm) as Huid.
    unfold matches in Hm. apply andb_prop in Hm as [_ Hhas].
    destruct (find (λ m, bool_decide (menu_id m = mid)) (menus c)) as [m|] eqn:Hfind.
    + destruct (find_split _ _ _ Hfind) as (pre' & post' & Hms & Hid & _).
      apply bool_decide_eq_true_1 in Hid. split; [done|].
      exists c. split; [rewrite Hdb; set_solver|]. split; [done|].
      rewrite Hms. set_solver.
    + apply has_menu_iff in Hhas as (m & Hin & Hid).
      rewrite find_none_iff in Hfind. specialize (Hfind m Hin).
      apply bool_decide_eq_false_1 in Hfind. done.
  - rewrite find_none_iff in Hc. intros c m Hin Huid Hm Hid.
    specialize (Hc c Hin). unfold matches in Hc.
    rewrite bool_decide_eq_true_2 in Hc by done. simpl in Hc.
    assert (has_menu mid c = true) by (apply has_menu_iff; eauto). congruence.
Qed.

(** *** [get_menu_list] *)

Section Display.

Context `{Runtime}.

Lemma display_filter_displayed m b :
  display_filter m = Returns b → displayed m = b.
Proof.
  unfold display_filter, displayed.
  destruct (collection m !! "sequence_number") as [v|]; [|by intros [= <-]].
  destruct (py_int v) as [z|e]; simpl; [by intros [= <-]|done].
Qed.

Lemma filterR_total (l : list Menu) :
  (∀ m, m ∈ l → ∃ b, display_filter m = Returns b) →
  filterR display_filter l = Returns (filter (λ m, displayed m = true) l).
Proof.
  induction l as [|x l IH]; intros Hall; [done|].
  destruct (Hall x) as [b Hb]; [left|].
  simpl. rewrite Hb. simpl. rewrite IH by (intros m Hm; apply Hall; by right).
  simpl. rewrite filter_cons, (display_filter_displayed x b Hb).
  by destruct b.
Qed.

Lemma filterR_raises {A} (f : A → Result bool) (l : list A) x e :
  x ∈ l → f x = Raises e → ∃ e', filterR f l = Raises e'.
Proof.
  induction l as [|a l IH]; intros Hin Hx; [by apply elem_of_nil in Hin|].
  apply elem_of_cons in Hin as [->|Hin].
  - simpl. rewrite Hx. by eexists.
  - simpl. destruct (f a) as [b|e1]; [|by eexists]. simpl.
    destruct (IH Hin Hx) as [e' ->]. by eexists.
Qed.

Lemma get_menu_list_filtered db uid :
  (∀ m, m ∈ stored_menus db uid → ∃ b, display_filter m = Returns b) →
  get_menu_list db uid true
  = filter (λ m, displayed m = true) (stored_menus db uid).
Proof.
  unfold get_menu_list, stored_menus. intros Hall.
  destruct (get_cafe db uid None) as [cafe|]; [|done].
  by rewrite filterR_total.
Qed.

(** X2.  When every sequence number stored for the business is one that
    [int] accepts, [get_menu_list] with [for_display] answers with the
    menus that have no sequence number or sequence number 0, in stored
    order; without [for_display] it answers with all of them; for an
    unknown business both are the empty list. *)
Theorem get_menu_list_display (db : DatabaseConfig) (uid : string) :
  (∀ m, m ∈ stored_menus db uid → ∃ b, display_filter m = Returns b) →
  get_menu_list db uid true = filter (λ m, displayed m = true) (stored_menus db uid)
  ∧ get_menu_list db uid false = stored_menus db uid.
Proof.
  intros Hall. split; [by apply get_menu_list_filtered|].
  unfold get_menu_list, stored_menus.
  by destruct (get_cafe db uid None) as [cafe|].
Qed.

(** X3.  One menu whose sequence number [int] rejects switches the display
    filter off for the whole business: [get_menu_list] with [for_display]
    then answers with every stored menu, pages with a sequence number
    above 0 included. *)
Theorem get_menu_list_unfiltered (db : DatabaseConfig) (uid : string)
    (m : Menu) (e : PyExn) :
  m ∈ stored_menus db uid →
  display_filter m = Raises e →
  get_menu_list db uid true = stored_menus db uid.
Proof.
  unfold get_menu_list, stored_menus. intros Hin Hm.
  destruct (get_cafe db uid None) as [cafe|]; [|done].
  by destruct (filterR_raises display_filter (menus cafe) m e Hin Hm) as [e' ->].
Qed.

End Display.

Lemma get_menu_list_display_witness :
  get_menu_list (H := demo_runtime) db_pages "cafe-1" true
  = [page "p0" (PInt 0) "Pies"]
  ∧ get_menu_list (H := demo_runtime) db_pages "cafe-1" false
    = [page "p0" (PInt 0) "Pies"; page "p1" (PInt 1) "Tea"].
Proof.
  destruct (get_menu_list_display (H := demo_runtime) db_pages "cafe-1") as [Ht Hf].
  - intros m Hm. vm_compute in Hm.
    repeat (apply elem_of_cons in Hm as [->|Hm]; [eexists; vm_compute; reflexivity|]).
    by apply elem_of_nil in Hm.
  - rewrite Ht, Hf. split; vm_compute; reflexivity.
Defined.

Lemma get_menu_list_unfiltered_witness :
  get_menu_list (H := demo_runtime) db_bad_page "cafe-1" true
  = [page "p0" (PInt 0) "Pies"; page "p1" (PInt 1) "Tea";
     page "p2" (PStr "two") "Cake"].
Proof.
  rewrite (get_menu_list_unfiltered (H := demo_runtime) db_bad_page "cafe-1"
             (page "p2" (PStr "two") "Cake")
             (ValueError "invalid literal for int()")).
  - vm_compute. reflexivity.
  - vm_compute. right. right. left.
  - vm_compute. reflexivity.
Defined.

(** *** [save_menu] *)

Lemma get_cafe_split db uid c :
  get_cafe db uid None = Some c →
  ∃ pre post,
    cafes db = pre ++ c :: post ∧ business_uid c = uid
    ∧ ∀ y, y ∈ pre → business_uid y ≠ uid.
Proof.
  unfold get_cafe, find_one. intros Hfind.
  destruct (find_split _ _ _ Hfind) as (pre & post & Hdb & Hc & Hpre).
  exists pre, post. split; [done|]. split; [by apply matches_uid in Hc|].
  intros y Hy Huid. specialize (Hpre y Hy). unfold matches in Hpre.
  by rewrite bool_decide_eq_true_2 in Hpre.
Qed.

Lemma get_cafe_none db uid :
  get_cafe db uid None = None → ∀ y, y ∈ cafes db → business_uid y ≠ uid.
Proof.
  unfold get_cafe, find_one. rewrite find_none_iff. intros Hall y Hy Huid.
  specialize (Hall y Hy). unfold matches in Hall.
  by rewrite bool_decide_eq_true_2 in Hall.
Qed.

Lemma find_matches_skip uid crit pre l :
  (∀ y, y ∈ pre → business_uid y ≠ uid) →
  find (matches uid crit) (pre ++ l) = find (matches uid crit) l.
Proof.
  intros Hpre. apply find_skip. intros y Hy. unfold matches.
  by rewrite bool_decide_eq_false_2 by (by apply Hpre).
Qed.

Lemma set_first_split uid c c' pre post :
  (∀ y, y ∈ pre → business_uid y ≠ uid) → business_uid c = uid →
  set_first uid c' (pre ++ c :: post) = Some (pre ++ c' :: post).
Proof.
  intros Hpre Hc. induction pre as [|a pre IH]; simpl.
  - by rewrite bool_decide_eq_true_2.
  - rewrite bool_decide_eq_false_2 by (apply Hpre; left).
    rewrite IH; [done|]. intros y Hy. apply Hpre. by right.
Qed.

Lemma set_first_none uid c' l :
  (∀ y, y ∈ l → business_uid y ≠ uid) → set_first uid c' l = None.
Proof.
  induction l as [|a l IH]; intros Hall; simpl; [done|].
  rewrite bool_decide_eq_false_2 by (apply Hall; left).
  rewrite IH; [done|]. intros y Hy. apply Hall. by right.
Qed.

Lemma update_first_split uid ms c pre post :
  (∀ y, y ∈ pre → business_uid y ≠ uid) → business_uid c = uid →
  update_first uid ms (pre ++ c :: post) = pre ++ set_menus ms c :: post.
Proof.
  intros Hpre Hc. induction pre as [|a pre IH]; simpl.
  - by rewrite bool_decide_eq_true_2.
  - rewrite bool_decide_eq_false_2 by (apply Hpre; left).
    rewrite IH; [done|]. intros y Hy. apply Hpre. by right.
Qed.

Lemma find_menu_skip mid (pre l : list Menu) :
  (∀ x, x ∈ pre → menu_id x ≠ mid) →
  find (λ m, bool_decide (menu_id m = mid)) (pre ++ l)
  = find (λ m, bool_decide (menu_id m = mid)) l.
Proof.
  intros Hpre. apply find_skip. intros y Hy.
  apply bool_decide_eq_false_2. by apply Hpre.
Qed.

Lemma has_menu_false mid c :
  has_menu mid c = false → ∀ x, x ∈ menus c → menu_id x ≠ mid.
Proof.
  intros Hno x Hx Hid.
  assert (has_menu mid c = true) by (apply has_menu_iff; eauto). congruence.
Qed.

Section Saving.

Variable default_avatar_settings : option (gmap string string).

Lemma save_menu_cases db uid m :
  (∃ pre c post,
      get_cafe db uid None = Some c
      ∧ cafes db = pre ++ c :: post
      ∧ business_uid c = uid
      ∧ (∀ y, y ∈ pre → business_uid y ≠ uid)
      ∧ cafes (save_menu default_avatar_settings db uid m).1
        = pre ++ set_menus (menus c ++ [m]) c :: post)
  ∨ (get_cafe db uid None = None
     ∧ (∀ y, y ∈ cafes db → business_uid y ≠ uid)
     ∧ cafes (save_menu default_avatar_settings db uid m).1
       = cafes db ++ [mkCafe uid [m] default_avatar_settings]).
Proof.
  unfold save_menu. destruct (get_cafe db uid None) as [c|] eqn:Hc.
  - left. destruct (get_cafe_split _ _ _ Hc) as (pre & post & Hdb & Huid & Hpre).
    exists pre, c, post. repeat (split; [done|]).
    unfold update_one_doc. rewrite Hdb.
    by rewrite (set_first_split uid c _ pre post).
  - right. split; [done|]. split; [by apply get_cafe_none|]. done.
Qed.

(** X4.  A menu saved with [save_menu] is found again by [get_one_menu]
    under its id, provided the cafe of the business did not already hold
    a menu with that id; the business need not exist beforehand. *)
Theorem save_menu_then_get (db : DatabaseConfig) (uid : string) (m : Menu) :
  (∀ cafe, get_cafe db uid None = Some cafe → has_menu (menu_id m) cafe = false) →
  (save_menu default_avatar_settings db uid m).2 = (true, "")
  ∧ get_one_menu (save_menu default_avatar_settings db uid m).1 uid (menu_id m)
    = Some m.
Proof.
  intros Hfresh. split; [unfold save_menu; by destruct (get_cafe db uid None)|].
  unfold get_one_menu, get_cafe, find_one.
  destruct (save_menu_cases db uid m)
    as [(pre & c & post & Hc & Hdb & Huid & Hpre & ->)|(Hc & Hall & ->)].
  - rewrite find_matches_skip by done. simpl.
    assert (Hmatch : matches uid (Some (menu_id m)) (set_menus (menus c ++ [m]) c)
                     = true).
    { unfold matches. simpl. rewrite bool_decide_eq_true_2 by done. simpl.
      apply has_menu_iff. exists m. split; [set_solver|done]. }
    rewrite Hmatch. simpl.
    rewrite find_menu_skip by (apply has_menu_false; by apply Hfresh).
    simpl. by rewrite bool_decide_eq_true_2.
  - rewrite find_matches_skip by done. simpl.
    unfold matches, has_menu. simpl.
    rewrite !bool_decide_eq_true_2 by done. simpl.
    by rewrite bool_decide_eq_true_2.
Qed.

Lemma save_menu_stored db uid m :
  stored_menus (save_menu default_avatar_settings db uid m).1 uid
  = stored_menus db uid ++ [m].
Proof.
  unfold stored_menus, get_cafe, find_one.
  destruct (save_menu_cases db uid m)
    as [(pre & c & post & Hc & Hdb & Huid & Hpre & ->)|(Hc & Hall & ->)];
    unfold get_cafe, find_one in Hc; rewrite Hc;
    rewrite find_matches_skip by done; simpl;
    unfold matches; simpl; by rewrite bool_decide_eq_true_2.
Qed.

Lemma save_menu_others db uid m uid' crit :
  uid' ≠ uid →
  get_cafe (save_menu default_avatar_settings db uid m).1 uid' crit
  = get_cafe db uid' crit.
Proof.
  intros Hne. unfold get_cafe, find_one.
  destruct (save_menu_cases db uid m)
    as [(pre & c & post & Hc & Hdb & Huid & Hpre & ->)|(Hc & Hall & ->)].
  - rewrite Hdb. apply find_replace; by apply (matches_other uid uid').
  - apply find_snoc_false. by apply (matches_other uid uid').
Qed.

(** X5.  [save_menu] puts the menu at the end of the menus stored for the
    business, creating the cafe document when there is none, and leaves
    what [get_cafe] answers for every other business as it was. *)
Theorem save_menu_appends (db : DatabaseConfig) (uid : string) (m : Menu) :
  stored_menus (save_menu default_avatar_settings db uid m).1 uid
  = stored_menus db uid ++ [m]
  ∧ ∀ uid' crit, uid' ≠ uid →
      get_cafe (save_menu default_avatar_settings db uid m).1 uid' crit
      = get_cafe db uid' crit.
Proof.
  split.
  - apply save_menu_stored.
  - intros uid' crit Hne. by apply save_menu_others.
Qed.

(** X6.  After [save_menu] has stored a menu of a group whose id is longer
    than ten characters, [count_menus_in_collection] answers with one more
    than the number of menus of that group the business had before; it no
    longer raises, whatever the cafe held. *)
Theorem save_menu_then_count (db : DatabaseConfig) (uid grp_id : string)
    (m : Menu) :
  10 < py_len grp_id →
  in_group grp_id m = true →
  count_menus_in_collection (save_menu default_avatar_settings db uid m).1
    uid grp_id
  = Returns (S (in_group_count db uid grp_id)).
Proof.
  intros Hlen Hgrp.
  pose proof (save_menu_stored db uid m) as Hstored.
  unfold count_menus_in_collection, in_group_count.
  rewrite (bool_decide_eq_false_2 (py_len grp_id ≤ 10)) by lia.
  rewrite andb_false_r.
  unfold stored_menus in Hstored at 1.
  destruct (get_cafe (save_menu default_avatar_settings db uid m).1 uid None)
    as [c|]; [|by destruct (stored_menus db uid)].
  rewrite Hstored.
  rewrite bool_decide_eq_true_2 by (rewrite length_app; simpl; lia).
  rewrite filter_app, length_app, filter_cons_True by done.
  simpl. f_equal. lia.
Qed.

End Saving.

Lemma save_menu_then_get_witness :
  (save_menu None db_empty "cafe-1" (page "p0" (PInt 0) "Pies")).2 = (true, "")
  ∧ get_one_menu (save_menu None db_empty "cafe-1" (page "p0" (PInt 0) "Pies")).1
      "cafe-1" (menu_id (page "p0" (PInt 0) "Pies"))
    = Some (page "p0" (PInt 0) "Pies").
Proof.
  apply (save_menu_then_get None db_empty "cafe-1" (page "p0" (PInt 0) "Pies")).
  intros cafe Hc. vm_compute in Hc. injection Hc as <-. reflexivity.
Defined.

Lemma save_menu_then_count_witness :
  count_menus_in_collection
    (save_menu None db_pages "cafe-1" (page "p2" (PInt 2) "Cake")).1 "cafe-1" grp
  = Returns (S (in_group_count db_pages "cafe-1" grp)).
Proof.
  apply (save_menu_then_count None db_pages "cafe-1" grp (page "p2" (PInt 2) "Cake")).
  - vm_compute. lia.
  - vm_compute. reflexivity.
Defined.

(** *** A business with one document: [delete_one_menu],
    [update_menu_field], [upsert_cafe_settings] *)

Lemma one_document_get_cafe db uid c :
  one_document db uid c → get_cafe db uid None = Some c.
Proof.
  intros (pre & post & Hdb & Huid & Hrest).
  unfold get_cafe, find_one. rewrite Hdb, find_matches_skip.
  - simpl. unfold matches. by rewrite bool_decide_eq_true_2.
  - intros y Hy. apply Hrest. set_solver.
Qed.

Lemma one_document_get_one_menu db uid c mid :
  one_document db uid c →
  get_one_menu db uid mid = find (λ m, bool_decide (menu_id m = mid)) (menus c).
Proof.
  intros (pre & post & Hdb & Huid & Hrest).
  unfold get_one_menu, get_cafe, find_one. rewrite Hdb, find_matches_skip.
  2: { intros y Hy. apply Hrest. set_solver. }
  simpl. unfold matches at 1. rewrite bool_decide_eq_true_2 by done. simpl.
  destruct (has_menu mid c) eqn:Hhas; [done|].
  assert (Hpost : find (matches uid (Some mid)) post = None).
  { apply find_none_iff. intros y Hy. unfold matches.
    rewrite bool_decide_eq_false_2; [done|]. apply Hrest. set_solver. }
  rewrite Hpost. symmetry. apply find_none_iff. intros y Hy.
  apply bool_decide_eq_false_2. by apply (has_menu_false mid c).
Qed.

Lemma one_document_update db uid c ms :
  one_document db uid c →
  one_document (update_one db uid ms) uid (set_menus ms c).
Proof.
  intros (pre & post & Hdb & Huid & Hrest).
  exists pre, post. split; [|done]. simpl. rewrite Hdb.
  apply update_first_split; [|done]. intros y Hy. apply Hrest. set_solver.
Qed.

Lemma find_some_has_menu mid c m :
  find (λ m, bool_decide (menu_id m = mid)) (menus c) = Some m →
  has_menu mid c = true.
Proof.
  intros Hfind. destruct (find_split _ _ _ Hfind) as (pre & post & Hms & Hid & _).
  apply has_menu_iff. exists m. split; [rewrite Hms; set_solver|].
  by apply bool_decide_eq_true_1 in Hid.
Qed.

Lemma one_document_find_one db uid c mid :
  one_document db uid c → has_menu mid c = true →
  find_one db uid (Some mid) = Some c.
Proof.
  intros (pre & post & Hdb & Huid & Hrest) Hhas.
  unfold find_one. rewrite Hdb, find_matches_skip.
  - simpl. unfold matches. by rewrite bool_decide_eq_true_2, Hhas.
  - intros y Hy. apply Hrest. set_solver.
Qed.

Lemma find_filter_other mid mid' (l : list Menu) :
  mid' ≠ mid →
  find (λ m, bool_decide (menu_id m = mid')) (filter (λ m, menu_id m ≠ mid) l)
  = find (λ m, bool_decide (menu_id m = mid')) l.
Proof.
  intros Hne. induction l as [|a l IH]; [done|].
  rewrite filter_cons. destruct (decide (menu_id a ≠ mid)) as [Ha|Ha]; simpl.
  - by rewrite IH.
  - rewrite IH. apply dec_stable in Ha.
    by rewrite bool_decide_eq_false_2 by congruence.
Qed.

(** X7.  On a business with one cafe document that holds the menu,
    [delete_one_menu] answers [True], after which [get_one_menu] no longer
    finds the id (every menu with that id is gone, not only the first)
    and finds every other id as before. *)
Theorem delete_one_menu_removes (db : DatabaseConfig) (uid mid : string)
    (c : Cafe) :
  one_document db uid c →
  has_menu mid c = true →
  (delete_one_menu db uid mid).2 = (true, "")
  ∧ get_one_menu (delete_one_menu db uid mid).1 uid mid = None
  ∧ stored_menus (delete_one_menu db uid mid).1 uid
    = filter (λ m, menu_id m ≠ mid) (menus c)
  ∧ ∀ mid', mid' ≠ mid →
      get_one_menu (delete_one_menu db uid mid).1 uid mid'
      = get_one_menu db uid mid'.
Proof.
  intros Hone Hhas. unfold delete_one_menu.
  rewrite (one_document_find_one db uid c mid) by done. simpl.
  assert (Huid : business_uid c = uid) by (by destruct Hone as (? & ? & ? & ? & ?)).
  rewrite Huid.
  pose proof (one_document_update db uid c
                (filter (λ m, menu_id m ≠ mid) (menus c)) Hone) as Hone'.
  split; [done|]. split; [|split].
  - rewrite (one_document_get_one_menu _ _ _ mid Hone'). simpl.
    apply find_none_iff. intros y [Hy _]%list_elem_of_filter.
    by apply bool_decide_eq_false_2.
  - unfold stored_menus. by rewrite (one_document_get_cafe _ _ _ Hone').
  - intros mid' Hne.
    rewrite (one_document_get_one_menu _ _ _ mid' Hone'),
            (one_document_get_one_menu _ _ _ mid' Hone). simpl.
    by apply find_filter_other.
Qed.

(** X8.  When [get_one_menu] finds no menu with the id, [delete_one_menu]
    and [update_menu_field] both answer [False] with a message and leave
    the collection as it was. *)
Theorem missing_menu_is_reported (db : DatabaseConfig) (uid mid v : string) :
  get_one_menu db uid mid = None →
  delete_one_menu db uid mid = (db, (false, delete_failed_msg))
  ∧ update_menu_field db uid mid v = (db, (false, update_failed_msg)).
Proof.
  unfold get_one_menu, delete_one_menu, update_menu_field, get_cafe.
  destruct (find_one db uid (Some mid)) as [c|] eqn:Hc; [|done].
  intros Hfind. exfalso.
  unfold find_one in Hc.
  destruct (find_split _ _ _ Hc) as (pre & post & _ & Hm & _).
  unfold matches in Hm. apply andb_prop in Hm as [_ Hhas].
  apply has_menu_iff in Hhas as (m & Hin & Hid).
  rewrite find_none_iff in Hfind. specialize (Hfind m Hin).
  by apply bool_decide_eq_false_1 in Hfind.
Qed.

Lemma set_first_text_split mid v m (pre post : list Menu) :
  (∀ x, x ∈ pre → menu_id x ≠ mid) → menu_id m = mid →
  set_first_text mid v (pre ++ m :: post) = Some (pre ++ set_menu_text v m :: post).
Proof.
  intros Hpre Hm. induction pre as [|a pre IH]; simpl.
  - by rewrite bool_decide_eq_true_2.
  - rewrite bool_decide_eq_false_2 by (apply Hpre; left).
    rewrite IH; [done|]. intros y Hy. apply Hpre. by right.
Qed.

(** X9.  On a business with one cafe document, [update_menu_field] sets the
    text of the menu [get_one_menu] finds under the id, and of that menu
    only: afterwards [get_one_menu] answers with the same menu carrying
    the new text, and with every other id as before. *)
Theorem update_menu_field_then_get (db : DatabaseConfig) (uid mid v : string)
    (c : Cafe) (m : Menu) :
  one_document db uid c →
  get_one_menu db uid mid = Some m →
  (update_menu_field db uid mid v).2 = (true, "")
  ∧ get_one_menu (update_menu_field db uid mid v).1 uid mid
    = Some (set_menu_text v m)
  ∧ ∀ mid', mid' ≠ mid →
      get_one_menu (update_menu_field db uid mid v).1 uid mid'
      = get_one_menu db uid mid'.
Proof.
  intros Hone Hget.
  rewrite (one_document_get_one_menu _ _ _ mid Hone) in Hget.
  pose proof (find_some_has_menu _ _ _ Hget) as Hhas.
  destruct (find_split _ _ _ Hget) as (pre & post & Hms & Hid & Hpre).
  apply bool_decide_eq_true_1 in Hid.
  assert (Hpre' : ∀ x, x ∈ pre → menu_id x ≠ mid).
  { intros x Hx. specialize (Hpre x Hx). by apply bool_decide_eq_false_1 in Hpre. }
  assert (Huid : business_uid c = uid) by (by destruct Hone as (? & ? & ? & ? & ?)).
  unfold update_menu_field, get_cafe.
  rewrite (one_document_find_one db uid c mid) by done.
  rewrite Hms, (set_first_text_split mid v m pre post) by done.
  rewrite Huid. simpl.
  pose proof (one_document_update db uid c
                (pre ++ set_menu_text v m :: post) Hone) as Hone'.
  split; [done|]. split.
  - rewrite (one_document_get_one_menu _ _ _ mid Hone'). simpl.
    rewrite find_menu_skip by done. simpl. by rewrite bool_decide_eq_true_2.
  - intros mid' Hne.
    rewrite (one_document_get_one_menu _ _ _ mid' Hone'),
            (one_document_get_one_menu _ _ _ mid' Hone). simpl.
    rewrite Hms. apply find_replace; simpl;
      apply bool_decide_eq_false_2; congruence.
Qed.

(** X10.  [upsert_cafe_settings] with the default [skip_fields] always
    answers [True] and rewrites one document only, the first of the
    business: that document keeps its menus and takes every other field of
    the given cafe, [business_uid] included, so that a cafe carrying
    another uid renames the document; when the business has no document
    the given cafe is stored as it is, at the end of the collection.
    When the given cafe carries the uid of the business, [get_cafe] then
    answers with the old menus under the new settings, and for every
    other business as before. *)
Theorem upsert_cafe_settings_keeps_menus (db : DatabaseConfig) (uid : string)
    (partial : Cafe) :
  (upsert_cafe_settings db uid partial (Some ["menus"])).2 = (true, "")
  ∧ match get_cafe db uid None with
    | Some c =>
        ∃ pre post,
          cafes db = pre ++ c :: post
          ∧ (∀ y, y ∈ pre → business_uid y ≠ uid)
          ∧ cafes (upsert_cafe_settings db uid partial (Some ["menus"])).1
            = pre ++ mkCafe (business_uid partial) (menus c)
                       (avatar_settings partial) :: post
    | None =>
        cafes (upsert_cafe_settings db uid partial (Some ["menus"])).1
        = cafes db ++ [partial]
    end
  ∧ (business_uid partial = uid →
     get_cafe (upsert_cafe_settings db uid partial (Some ["menus"])).1 uid None
     = Some (match get_cafe db uid None with
             | Some c => mkCafe uid (menus c) (avatar_settings partial)
             | None => partial
             end)
     ∧ ∀ uid' crit, uid' ≠ uid →
         get_cafe (upsert_cafe_settings db uid partial (Some ["menus"])).1
           uid' crit
         = get_cafe db uid' crit).
Proof.
  split; [done|].
  unfold upsert_cafe_settings, update_one_doc. simpl.
  destruct (get_cafe db uid None) as [c|] eqn:Hc.
  - destruct (get_cafe_split _ _ _ Hc) as (pre & post & Hdb & Huid & Hpre).
    rewrite Hdb, (set_first_split uid c _ pre post) by done. simpl.
    split; [by exists pre, post|].
    intros Hp. rewrite Hp. unfold get_cafe, find_one. simpl. split.
    + rewrite find_matches_skip by done. simpl.
      unfold matches. simpl. by rewrite bool_decide_eq_true_2.
    + intros uid' crit Hne. rewrite Hdb.
      apply find_replace; by apply (matches_other uid uid').
  - pose proof (get_cafe_none _ _ Hc) as Hall.
    rewrite (set_first_none uid partial (cafes db)) by done. simpl.
    split; [done|].
    intros Hp. unfold get_cafe, find_one. simpl. split.
    + rewrite find_matches_skip by done. simpl.
      unfold matches. simpl. by rewrite bool_decide_eq_true_2.
    + intros uid' crit Hne. apply find_snoc_false. by apply (matches_other uid uid').
Qed.

Lemma one_document_pages :
  one_document db_pages "cafe-1"
    (cafe_of [page "p0" (PInt 0) "Pies"; page "p1" (PInt 1) "Tea"]).
Proof.
  exists [], []. split; [reflexivity|]. split; [reflexivity|].
  intros x Hx. by apply elem_of_nil in Hx.
Qed.

Lemma delete_one_menu_removes_witness :
  (delete_one_menu db_pages "cafe-1" "p1").2 = (true, "")
  ∧ get_one_menu (delete_one_menu db_pages "cafe-1" "p1").1 "cafe-1" "p1" = None
  ∧ stored_menus (delete_one_menu db_pages "cafe-1" "p1").1 "cafe-1"
    = filter (λ m, menu_id m ≠ "p1")
        (menus (cafe_of [page "p0" (PInt 0) "Pies"; page "p1" (PInt 1) "Tea"]))
  ∧ ∀ mid', mid' ≠ "p1" →
      get_one_menu (delete_one_menu db_pages "cafe-1" "p1").1 "cafe-1" mid'
      = get_one_menu db_pages "cafe-1" mid'.
Proof.
  apply (delete_one_menu_removes db_pages "cafe-1" "p1"
           (cafe_of [page "p0" (PInt 0) "Pies"; page "p1" (PInt 1) "Tea"])).
  - apply one_document_pages.
  - vm_compute. reflexivity.
Defined.

Lemma missing_menu_is_reported_witness :
  delete_one_menu db_pages "cafe-1" "p7" = (db_pages, (false, delete_failed_msg))
  ∧ update_menu_field db_pages "cafe-1" "p7" "Jam"
    = (db_pages, (false, update_failed_msg)).
Proof.
  apply (missing_menu_is_reported db_pages "cafe-1" "p7" "Jam").
  vm_compute. reflexivity.
Defined.

Lemma update_menu_field_then_get_witness :
  (update_menu_field db_pages "cafe-1" "p1" "Scones").2 = (true, "")
  ∧ get_one_menu (update_menu_field db_pages "cafe-1" "p1" "Scones").1 "cafe-1" "p1"
    = Some (set_menu_text "Scones" (page "p1" (PInt 1) "Tea"))
  ∧ ∀ mid', mid' ≠ "p1" →
      get_one_menu (update_menu_field db_pages "cafe-1" "p1" "Scones").1 "cafe-1" mid'
      = get_one_menu db_pages "cafe-1" mid'.
Proof.
  apply (update_menu_field_then_get db_pages "cafe-1" "p1" "Scones"
           (cafe_of [page "p0" (PInt 0) "Pies"; page "p1" (PInt 1) "Tea"])
           (page "p1" (PInt 1) "Tea")).
  - apply one_document_pages.
  - vm_compute. reflexivity.
Defined.

Lemma upsert_cafe_settings_keeps_menus_witness :
  get_cafe (upsert_cafe_settings db_pages "cafe-1" (mkCafe "cafe-1" [] None)
              (Some ["menus"])).1 "cafe-1" None
  = Some (mkCafe "cafe-1" [page "p0" (PInt 0) "Pies"; page "p1" (PInt 1) "Tea"] None).
Proof.
  destruct (upsert_cafe_settings_keeps_menus db_pages "cafe-1"
              (mkCafe "cafe-1" [] None)) as (_ & _ & Hsame).
  destruct (Hsame eq_refl) as [Hget _].
  rewrite Hget. vm_compute. reflexivity.
Defined.

(** Settings that carry another uid rename the document of the business,
    which keeps its menus. *)
Example upsert_renames_document :
  cafes (upsert_cafe_settings db_pages "cafe-1" (mkCafe "cafe-2" [] None)
           (Some ["menus"])).1
  = [mkCafe "cafe-2" [page "p0" (PInt 0) "Pies"; page "p1" (PInt 1) "Tea"] None].
Proof. vm_compute. reflexivity. Qed.

(** *** What [collate_text] works on *)

Section Collation.

Context `{Runtime}.

(** X11.  When every sequence number stored for the business is one that
    [int] accepts, the menus [collate_text] sorts and joins all carry
    sequence number 0: [get_menu_list] has already dropped the pages with
    a higher sequence number, so their text never reaches the collated
    menu. *)
Theorem collate_text_sees_first_pages_only (db : DatabaseConfig)
    (uid grp_id : string) (m : Menu) :
  (∀ x, x ∈ stored_menus db uid → ∃ b, display_filter x = Returns b) →
  m ∈ group_of db uid grp_id →
  m ∈ stored_menus db uid
  ∧ in_group grp_id m = true
  ∧ ∀ z, sequence_key m = Returns z → z = 0%Z.
Proof.
  intros Hall Hm.
  pose proof (get_menu_list_filtered db uid Hall) as Hlist.
  unfold group_of in Hm. rewrite Hlist in Hm.
  apply list_elem_of_filter in Hm as [Hgrp Hm].
  apply list_elem_of_filter in Hm as [Hdisp Hin].
  split; [done|]. split; [done|]. intros z Hkey.
  unfold sequence_key, getitem in Hkey. unfold displayed in Hdisp.
  destruct (collection m !! "sequence_number") as [v|]; [|done].
  simpl in Hkey. rewrite Hkey in Hdisp. by apply bool_decide_eq_true_1 in Hdisp.
Qed.

(** *** [sorted] by sequence number *)

Lemma insert_by_key_perm k x l : insert_by_key k x l ≡ₚ (k, x) :: l.
Proof.
  induction l as [|[k' y] l IH]; simpl; [done|].
  destruct (bool_decide (k < k')%Z); [done|].
  by rewrite IH, Permutation_swap.
Qed.

Lemma insert_by_key_sorted k x l :
  StronglySorted (λ p q : Z * Menu, (p.1 ≤ q.1)%Z) l →
  StronglySorted (λ p q : Z * Menu, (p.1 ≤ q.1)%Z) (insert_by_key k x l).
Proof.
  induction l as [|[k' y] l IH]; intros Hs; simpl.
  - repeat constructor.
  - apply StronglySorted_cons in Hs as [Hall Hs].
    destruct (bool_decide (k < k')%Z) eqn:Hlt.
    + apply bool_decide_eq_true_1 in Hlt.
      apply StronglySorted_cons. split.
      * constructor; [simpl; lia|].
        eapply Forall_impl; [exact Hall|]. simpl. intros q Hq. lia.
      * by apply StronglySorted_cons.
    + apply bool_decide_eq_false_1 in Hlt.
      apply StronglySorted_cons. split; [|by apply IH].
      rewrite insert_by_key_perm. constructor; [simpl; lia|done].
Qed.

Lemma sort_keyed_spec l :
  sort_keyed l ≡ₚ l
  ∧ StronglySorted (λ p q : Z * Menu, (p.1 ≤ q.1)%Z) (sort_keyed l).
Proof.
  unfold sort_keyed.
  assert (Hgen : ∀ acc,
    StronglySorted (λ p q : Z * Menu, (p.1 ≤ q.1)%Z) acc →
    foldl (λ acc p, insert_by_key p.1 p.2 acc) acc l ≡ₚ acc ++ l
    ∧ StronglySorted (λ p q : Z * Menu, (p.1 ≤ q.1)%Z)
        (foldl (λ acc p, insert_by_key p.1 p.2 acc) acc l)).
  { induction l as [|[k x] l IH]; intros acc Hacc; simpl.
    - by rewrite app_nil_r.
    - destruct (IH (insert_by_key k x acc)) as [Hperm Hsorted];
        [by apply insert_by_key_sorted|].
      split; [|done].
      rewrite Hperm, insert_by_key_perm. simpl. by rewrite Permutation_middle. }
  destruct (Hgen []) as [Hperm Hsorted]; [constructor|]. done.
Qed.

Lemma keyed_spec ms ks :
  mapR (λ x, k ← sequence_key x; Returns (k, x)) ms = Returns ks →
  ks.*2 = ms ∧ Forall (λ p, sequence_key p.2 = Returns p.1) ks.
Proof.
  revert ks. induction ms as [|x ms IH]; intros ks; simpl.
  - by intros [= <-].
  - unfold mbind, Result_bind.
    destruct (sequence_key x) as [k|] eqn:Hk; [|done].
    destruct (mapR _ ms) as [ks'|]; [|done].
    intros [= <-]. destruct (IH ks' eq_refl) as [Hsnd Hall].
    split; [by rewrite fmap_cons, Hsnd|]. by constructor.
Qed.

Lemma keys_of_keyed ks :
  Forall (λ p : Z * Menu, sequence_key p.2 = Returns p.1) ks →
  mapR sequence_key (ks.*2) = Returns (ks.*1).
Proof.
  induction 1 as [|[k x] ks Hk _ IH]; [done|].
  change (mapR sequence_key (x :: ks.*2) = Returns (k :: ks.*1)).
  cbn [mapR]. cbn [fst snd] in Hk. rewrite Hk, IH. reflexivity.
Qed.

Lemma sorted_keys (ks : list (Z * Menu)) :
  StronglySorted (λ p q : Z * Menu, (p.1 ≤ q.1)%Z) ks →
  StronglySorted Z.le (ks.*1).
Proof.
  induction 1 as [|p ks _ IH Hall]; simpl; constructor; [done|].
  apply Forall_fmap. eapply Forall_impl; [exact Hall|]. done.
Qed.

(** X12.  When the sort in [collate_text] returns, its result holds the
    same menus as the group, each as often as before, in ascending order
    of their sequence numbers. *)
Theorem sorted_by_sequence_sorted (ms sorted_menus : list Menu) :
  sorted_by_sequence ms = Returns sorted_menus →
  sorted_menus ≡ₚ ms
  ∧ ∃ keys, mapR sequence_key sorted_menus = Returns keys
            ∧ StronglySorted Z.le keys.
Proof.
  unfold sorted_by_sequence, mbind, Result_bind.
  destruct (mapR _ ms) as [ks|] eqn:Hks; [|done].
  intros [= <-].
  destruct (keyed_spec ms ks Hks) as [Hsnd Hall].
  destruct (sort_keyed_spec ks) as [Hperm Hsorted].
  split.
  - by rewrite Hperm, Hsnd.
  - exists ((sort_keyed ks).*1). split.
    + apply keys_of_keyed. by rewrite Hperm.
    + by apply sorted_keys.
Qed.

End Collation.

Lemma collate_text_sees_first_pages_only_witness :
  page "p0" (PInt 0) "Pies" ∈ stored_menus db_pages "cafe-1"
  ∧ in_group grp (page "p0" (PInt 0) "Pies") = true
  ∧ ∀ z, sequence_key (H := demo_runtime) (page "p0" (PInt 0) "Pies") = Returns z →
         z = 0%Z.
Proof.
  apply (collate_text_sees_first_pages_only (H := demo_runtime) db_pages "cafe-1"
           grp (page "p0" (PInt 0) "Pies")).
  - intros x Hx. vm_compute in Hx.
    repeat (apply elem_of_cons in Hx as [->|Hx]; [eexists; vm_compute; reflexivity|]).
    by apply elem_of_nil in Hx.
  - vm_compute. left.
Defined.

Lemma sorted_by_sequence_sorted_witness :
  [page "p0" (PInt 0) "Pies"; page "p1" (PInt 1) "Tea"]
  ≡ₚ [page "p1" (PInt 1) "Tea"; page "p0" (PInt 0) "Pies"]
  ∧ ∃ keys,
      mapR (sequence_key (H := demo_runtime))
        [page "p0" (PInt 0) "Pies"; page "p1" (PInt 1) "Tea"] = Returns keys
      ∧ StronglySorted Z.le keys.
Proof.
  apply (sorted_by_sequence_sorted (H := demo_runtime)
           [page "p1" (PInt 1) "Tea"; page "p0" (PInt 0) "Pies"]
           [page "p0" (PInt 0) "Pies"; page "p1" (PInt 1) "Tea"]).
  vm_compute. reflexivity.
Defined.

(** *** [parse_dict] *)

Section Parsing.

Context {V : Type}.
Variable json_loads : string → option (gmap string V).

Lemma decide_cons_here {A B} `{EqDecision A} (k : A) (l : list A) (x y : B) :
  (if decide (k ∈ k :: l) then x else y) = x.
Proof. rewrite decide_True; [done|left]. Qed.

Lemma decide_cons_further {A B} `{EqDecision A} (k key : A) (l : list A)
    (x y : B) :
  k ≠ key →
  (if decide (k ∈ key :: l) then x else y) = (if decide (k ∈ l) then x else y).
Proof.
  intros Hne. destruct (decide (k ∈ l)) as [Hin|Hin].
  - rewrite decide_True; [done|by right].
  - rewrite decide_False; [done|]. by intros [?|?]%elem_of_cons.
Qed.

Lemma decide_nil {A B} `{EqDecision A} (k : A) (x y : B) :
  (if decide (k ∈ @nil A) then x else y) = y.
Proof. rewrite decide_False; [done|apply not_elem_of_nil]. Qed.

Lemma pick_dict (d : gmap string V) (l : list string) :
  ∀ ret, ∃ r,
    pick (TDict d) (Some d) l ret = Returns r
    ∧ ∀ k, r !! k = if decide (k ∈ l)
                    then match d !! k with Some v => Some v | None => ret !! k end
                    else ret !! k.
Proof.
  induction l as [|key l IH]; intros ret; cbn [pick].
  - exists ret. split; [done|]. intros k. by rewrite decide_nil.
  - destruct (d !! key) as [v|] eqn:Hkey.
    + destruct (IH (<[key := v]> ret)) as (r & -> & Hr). exists r. split; [done|].
      intros k. rewrite Hr. destruct (decide (k = key)) as [->|Hne].
      * rewrite decide_cons_here, Hkey, lookup_insert_eq.
        by destruct (decide (key ∈ l)).
      * by rewrite decide_cons_further, lookup_insert_ne by done.
    + destruct (IH ret) as (r & -> & Hr). exists r. split; [done|].
      intros k. rewrite Hr. destruct (decide (k = key)) as [->|Hne].
      * rewrite decide_cons_here, Hkey. by destruct (decide (key ∈ l)).
      * by rewrite decide_cons_further by done.
Qed.

Lemma drop_found_dict (l : list string) :
  ∀ d : gmap string V, ∃ r,
    drop_found l (Some d) = Returns (Some r)
    ∧ ∀ k, r !! k = if decide (k ∈ l) then None else d !! k.
Proof.
  induction l as [|key l IH]; intros d; cbn [drop_found].
  - exists d. split; [done|]. intros k. by rewrite decide_nil.
  - destruct (d !! key) as [v|] eqn:Hkey.
    + destruct (IH (delete key d)) as (r & -> & Hr). exists r. split; [done|].
      intros k. rewrite Hr. destruct (decide (k = key)) as [->|Hne].
      * rewrite decide_cons_here, lookup_delete_eq.
        by destruct (decide (key ∈ l)).
      * by rewrite decide_cons_further, lookup_delete_ne by done.
    + destruct (IH d) as (r & -> & Hr). exists r. split; [done|].
      intros k. rewrite Hr. destruct (decide (k = key)) as [->|Hne].
      * rewrite decide_cons_here, Hkey. by destruct (decide (key ∈ l)).
      * by rewrite decide_cons_further by done.
Qed.

(** X13.  On a [dict] and a list of keys, [parse_dict] without [drop_keys]
    answers with the dict restricted to the listed keys and leaves the
    caller's dict alone; with [drop_keys] it answers with the dict
    without the listed keys and the caller's dict has become that very
    answer. *)
Theorem parse_dict_on_dict (d : gmap string V) (l : list string) :
  (∃ r, parse_dict json_loads (TDict d) (KList l) false
        = Returns (Some r, TDict d)
        ∧ ∀ k, r !! k = if decide (k ∈ l) then d !! k else None)
  ∧ (∃ r, parse_dict json_loads (TDict d) (KList l) true
          = Returns (Some r, TDict r)
          ∧ ∀ k, r !! k = if decide (k ∈ l) then None else d !! k).
Proof.
  unfold parse_dict. split.
  - destruct (pick_dict d l ∅) as (r & -> & Hr). exists r. split; [done|].
    intros k. rewrite Hr, lookup_empty. destruct (decide (k ∈ l)); [|done].
    by destruct (d !! k).
  - destruct (drop_found_dict l d) as (r & -> & Hr). exists r. by split.
Qed.

Lemma pick_str s (d : gmap string V) (l : list string) k :
  k ∈ l → is_Some (d !! k) →
  ∀ ret, pick (TStr s) (Some d) l ret = Raises str_indices.
Proof.
  intros Hin Hk. induction l as [|key l IH]; intros ret; simpl.
  - by apply elem_of_nil in Hin.
  - destruct (d !! key) as [v|] eqn:Hkey; [done|].
    apply IH. apply elem_of_cons in Hin as [->|Hin]; [|done].
    rewrite Hkey in Hk. by destruct Hk.
Qed.

(** X14.  On a JSON text, [parse_dict] with a list of keys and without
    [drop_keys] cannot select anything: as soon as one listed key is
    present in the parsed object it raises [TypeError], because the value
    is read from the text and not from the parsed object. *)
Theorem parse_dict_on_text_raises (s : string) (d : gmap string V)
    (l : list string) (k : string) :
  json_loads s = Some d →
  k ∈ l →
  is_Some (d !! k) →
  parse_dict json_loads (TStr s) (KList l) false = Raises str_indices.
Proof.
  intros Hs Hin Hk. unfold parse_dict. rewrite Hs.
  by rewrite (pick_str s d l k Hin Hk).
Qed.

Lemma chars_shape s :
  Forall (λ c, ∃ a t, c = String a t ∧ py_len t = 0) (chars s)
  ∧ ∀ b s', s = String b s' → ∃ t cs, chars s = String b t :: cs.
Proof.
  induction s as [|a s' [IHall IHhead]]; [by split|].
  destruct s' as [|b s''].
  - split.
    + constructor; [by exists a, EmptyString|constructor].
    + intros b0 s0 [= <- <-]. by exists EmptyString, [].
  - change (chars (String a (String b s'')))
      with (if is_continuation b then
              match chars (String b s'') with
              | c :: cs => String a c :: cs
              | [] => [String a EmptyString]
              end
            else String a EmptyString :: chars (String b s'')).
    destruct (IHhead b s'' eq_refl) as (t & cs & Hch).
    rewrite Hch in IHall |- *.
    apply Forall_cons in IHall as [(a0 & t0 & Heq & Ht0) Hrest].
    injection Heq as <- <-.
    destruct (is_continuation b) eqn:Hb.
    + split.
      * constructor; [|done]. exists a, (String b t). split; [done|].
        simpl. by rewrite Hb.
      * intros b0 s0 [= <- <-]. by exists (String b t), cs.
    + split.
      * constructor; [by exists a, EmptyString|].
        constructor; [|done]. by exists b, t.
      * intros b0 s0 [= <- <-]. by exists EmptyString, (String b t :: cs).
Qed.

Lemma chars_length s c : c ∈ chars s → py_len c ≤ 1.
Proof.
  intros Hc. destruct (chars_shape s) as [Hall _].
  rewrite Forall_forall in Hall.
  destruct (Hall c Hc) as (a & t & -> & Ht). simpl. rewrite Ht.
  destruct (is_continuation a); lia.
Qed.

Lemma pick_absent target (d : gmap string V) (l : list string) ret :
  (∀ k, k ∈ l → d !! k = None) → pick target (Some d) l ret = Returns ret.
Proof.
  induction l as [|key l IH]; intros Habs; simpl; [done|].
  rewrite (Habs key) by left. apply IH. intros k Hk. apply Habs. by right.
Qed.

Lemma drop_found_absent (d : gmap string V) (l : list string) :
  (∀ k, k ∈ l → d !! k = None) → drop_found l (Some d) = Returns (Some d).
Proof.
  induction l as [|key l IH]; intros Habs; simpl; [done|].
  rewrite (Habs key) by left. apply IH. intros k Hk. apply Habs. by right.
Qed.

(** X15.  A key handed to [parse_dict] as a single string is walked through
    character by character and never looked up as a whole: on a dict
    whose keys all have more than one character the answer is the empty
    dict (or, with [drop_keys], the untouched dict), even when the string
    is one of its keys. *)
Theorem parse_dict_single_key (d : gmap string V) (s : string) :
  (∀ k, is_Some (d !! k) → 1 < py_len k) →
  parse_dict json_loads (TDict d) (KStr s) false = Returns (Some ∅, TDict d)
  ∧ parse_dict json_loads (TDict d) (KStr s) true = Returns (Some d, TDict d).
Proof.
  intros Hlong.
  assert (Habs : ∀ k, k ∈ chars s → d !! k = None).
  { intros k Hk. apply chars_length in Hk.
    destruct (d !! k) eqn:Hd; [|done].
    assert (1 < py_len k) by (apply Hlong; by eexists). lia. }
  unfold parse_dict.
  by rewrite pick_absent, drop_found_absent.
Qed.

End Parsing.

Lemma parse_dict_on_text_raises_witness :
  parse_dict (λ _, Some {["voice" := "kim"]}) (TStr "settings")
    (KList ["voice"]) false
  = Raises (@str_indices).
Proof.
  apply (parse_dict_on_text_raises (λ _, Some {["voice" := "kim"]}) "settings"
           {["voice" := "kim"]} ["voice"] "voice").
  - reflexivity.
  - left.
  - vm_compute. by eexists.
Defined.

Lemma parse_dict_single_key_witness :
  parse_dict (λ _, None) (TDict {["voice" := "kim"]}) (KStr "voice") false
  = Returns (Some ∅, TDict {["voice" := "kim"]})
  ∧ parse_dict (λ _, None) (TDict {["voice" := "kim"]}) (KStr "voice") true
    = Returns (Some {["voice" := "kim"]}, TDict {["voice" := "kim"]}).
Proof.
  apply (parse_dict_single_key (λ _, None) {["voice" := "kim"]} "voice").
  intros k [v Hk].
  destruct (decide (k = "voice")) as [->|Hne]; [vm_compute; lia|].
  by rewrite lookup_singleton_ne in Hk.
Defined.

(** A key of one character, of whatever width, is found. *)
Example parse_dict_one_character_key :
  chars "né" = ["n"; "é"]
  ∧ parse_dict (λ _, None) (TDict {["é" := "v"]}) (KStr "é") false
    = Returns (Some {["é" := "v"]}, TDict {["é" := "v"]}).
Proof. split; vm_compute; reflexivity. Qed.

End MongoExtra.

(** * Further properties of chat_api.py *)

Module ChatExtra.
Import YakAgents ChatApi Scenario ChatFacts.

#[local] Open Scope nat_scope.

(** *** [menu_ocr] and [menus_collate_images] *)

(** X16.  [menu_ocr] raises in exactly one situation: the image could be
    opened and the OCR server answered, but with a response that is not
    OK.  No branch has then bound the local [msg], and building the
    answer raises [UnboundLocalError]; every other failure is caught and
    reported. *)
Theorem menu_ocr_raises_iff (db : MongoHelper.DatabaseConfig)
    (uid mid : string) (file : Result unit) (post : Result OcrResponse)
    (e : PyExn) :
  menu_ocr db uid mid file post = Raises e
  ↔ e = UnboundLocalError "msg"
    ∧ ∃ u response, file = Returns u ∧ post = Returns response
                    ∧ resp_ok response = false.
Proof.
  unfold menu_ocr. split.
  - destruct file as [u|e1]; [|done]. destruct post as [response|e2]; [|done].
    destruct (resp_ok response) eqn:Hok.
    + destruct (resp_body response) as [| |[stdout|]]; try done.
      by destruct (MongoHelper.update_menu_field db uid mid stdout)
        as [db' [ok msg]].
    + intros [= <-]. split; [done|]. by exists u, response.
  - intros (-> & u & response & -> & -> & Hok). by rewrite Hok.
Qed.

Lemma update_menu_field_cases db uid mid v :
  ((MongoHelper.update_menu_field db uid mid v).2 = (true, "")
   ∧ is_Some (MongoHelper.get_cafe db uid (Some mid)))
  ∨ MongoHelper.update_menu_field db uid mid v
    = (db, (false, MongoHelper.update_failed_msg)).
Proof.
  unfold MongoHelper.update_menu_field.
  destruct (MongoHelper.get_cafe db uid (Some mid)) as [cafe|]; [|by right].
  left. split; [|by eexists].
  by destruct (MongoHelper.set_first_text mid v (MongoHelper.menus cafe)).
Qed.

(** X17.  An answer of [menu_ocr] is "success" only when the server sent
    an OK response whose data holds the text and the cafe document holding
    the menu was found; the database is then what [update_menu_field]
    leaves.  Every "error" answer leaves the database as it was. *)
Theorem menu_ocr_answers (db db' : MongoHelper.DatabaseConfig)
    (uid mid : string) (file : Result unit) (post : Result OcrResponse)
    (st : string) (m : Message) :
  menu_ocr db uid mid file post = Returns (db', (st, m)) →
  (st = "error" ∧ db' = db)
  ∨ (st = "success" ∧ m = MsgText ""
     ∧ ∃ u response stdout,
         file = Returns u ∧ post = Returns response
         ∧ resp_ok response = true
         ∧ resp_body response = BodyData (Some stdout)
         ∧ db' = (MongoHelper.update_menu_field db uid mid stdout).1
         ∧ is_Some (MongoHelper.get_cafe db uid (Some mid))).
Proof.
  unfold menu_ocr.
  destruct file as [u|e1]; [|intros [= <- <- <-]; by left].
  destruct post as [response|e2]; [|intros [= <- <- <-]; by left].
  destruct (resp_ok response) eqn:Hok; [|done].
  destruct (resp_body response) as [| |[stdout|]] eqn:Hbody;
    try (intros [= <- <- <-]; by left).
  destruct (update_menu_field_cases db uid mid stdout) as [[Hupd Hcafe]|Hupd].
  - destruct (MongoHelper.update_menu_field db uid mid stdout)
      as [db1 [ok msg]] eqn:Hcall.
    cbn [snd] in Hupd. injection Hupd as -> ->.
    intros [= <- <- <-]. right.
    split; [reflexivity|]. split; [reflexivity|].
    exists u, response, stdout. rewrite Hcall. cbn [fst].
    split; [reflexivity|]. split; [reflexivity|].
    split; [exact Hok|]. split; [exact Hbody|].
    split; [reflexivity|exact Hcafe].
  - rewrite Hupd. intros [= <- <- <-]. by left.
Qed.

Section Requests.

Context `{Runtime}.

(** X18.  The only status other than "success" that [menus_collate_images]
    answers is "erorr", and it answers it exactly when no menu is listed
    for the business; nothing is written then. *)
Theorem menus_collate_images_status (db db' : MongoHelper.DatabaseConfig)
    (uid grp_id st msg pm : string) :
  menus_collate_images db uid grp_id = Returns (db', CollateResp st msg pm) →
  (st = "success" ∧ MongoHelper.get_menu_list db uid true ≠ [])
  ∨ (st = "erorr" ∧ MongoHelper.get_menu_list db uid true = []
     ∧ db' = db ∧ pm = "").
Proof.
  unfold menus_collate_images, MongoHelper.collate_text.
  destruct (MongoHelper.get_menu_list db uid true) as [|m0 ms] eqn:Hlist.
  - simpl. intros [= <- <- <- <-]. right. done.
  - simpl.
    destruct (MongoHelper.sorted_by_sequence _) as [sorted_menus|e]; [|done].
    simpl.
    destruct (MongoHelper.update_menu_field _ _ _ _) as [db1 [[] msg1]];
      simpl; intros [= <- <- <- <-]; by left.
Qed.

(** *** [get_last_response] *)

(** X19.  For a session id the registry holds, reserved or created,
    [get_last_response] never raises and its answer is determined: the
    output of the agent's last run when the agent has one, and the empty
    text when the session is only reserved or the agent has no run
    yet. *)
Theorem get_last_response_registered (sid : string) (w : World) :
  is_Some (agent_registry w !! sid) →
  get_last_response sid w
  = Returns (LastResp match session_agent w sid with
                      | Some a =>
                          match last (runs a) with
                          | Some out => out
                          | None => ""
                          end
                      | None => ""
                      end).
Proof.
  intros [r Hr]. unfold get_last_response, registry_getitem, getattr,
    session_agent. rewrite Hr. simpl.
  destruct r as [l|]; [|done].
  by destruct (heap w !! l) as [a|].
Qed.

(** *** [agent_create] *)

Lemma fresh_unused (w : World) : heap w !! fresh (dom (heap w)) = None.
Proof. apply not_elem_of_dom, is_fresh. Qed.

Lemma agent_create_success db config w :
  created (agent_create db config w).2 = true →
  ∃ l a, heap w !! l = None
         ∧ (agent_create db config w).1
           = {| agent_registry :=
                  <[cfg_session_id config := Some l]> (agent_registry w);
                heap := <[l := a]> (heap w) |}.
Proof.
  unfold agent_create, alloc, registry_set.
  destruct (build_agent db config) as [[ag|]|e]; simpl; [|done..].
  intros _. exists (fresh (dom (heap w))), ag. split; [|done].
  apply fresh_unused.
Qed.

Lemma agent_create_failure db config w :
  created (agent_create db config w).2 = false →
  (agent_create db config w).1 = w.
Proof.
  unfold agent_create, alloc, registry_set.
  by destruct (build_agent db config) as [[ag|]|e].
Qed.

(** X20.  [agent_create] never changes an agent that exists, nor the entry
    of another session.  When it answers "success" the session id is
    bound to a new object, distinct from every existing one; when it
    answers "error" nothing has changed. *)
Theorem agent_create_frame (db : MongoHelper.DatabaseConfig)
    (config : SessionStart) (w : World) :
  let w' := (agent_create db config w).1 in
  (∀ l a, heap w !! l = Some a → heap w' !! l = Some a)
  ∧ (∀ sid, sid ≠ cfg_session_id config →
       agent_registry w' !! sid = agent_registry w !! sid)
  ∧ (if created (agent_create db config w).2
     then ∃ l, heap w !! l = None ∧ is_Some (heap w' !! l)
               ∧ agent_registry w' !! cfg_session_id config = Some (Some l)
     else w' = w).
Proof.
  simpl. destruct (created (agent_create db config w).2) eqn:Hc.
  - destruct (agent_create_success db config w Hc) as (l & a & Hl & ->). simpl.
    split; [|split].
    + intros l' a' Hl'. rewrite lookup_insert_ne; [done|]. congruence.
    + intros sid Hne. by rewrite lookup_insert_ne.
    + exists l. rewrite !lookup_insert_eq. eauto.
  - by rewrite (agent_create_failure db config w Hc).
Qed.

(** *** Streams *)

Lemma gen_step_agree w1 w2 g :
  heap w1 !! gen_yak g = heap w2 !! gen_yak g →
  (gen_step w1 g).1.2 = (gen_step w2 g).1.2
  ∧ (gen_step w1 g).2 = (gen_step w2 g).2
  ∧ heap (gen_step w1 g).1.1 !! gen_yak g
    = heap (gen_step w2 g).1.1 !! gen_yak g.
Proof.
  intros Hag. unfold gen_step, status_at. rewrite Hag.
  destruct (gen_pc g); repeat case_match; simpl; try done.
  by rewrite !lookup_alter_eq, Hag.
Qed.

Lemma exec_foreign sid evs :
  ∀ w1 w2 g,
    agent_registry w1 !! sid ≠ Some (Some (gen_yak g)) →
    heap w1 !! gen_yak g = heap w2 !! gen_yak g →
    (exec sid evs w1 g).1.2 = (exec sid (replicate (ticks evs) Tick) w2 g).1.2
    ∧ emitted (exec sid evs w1 g).2
      = emitted (exec sid (replicate (ticks evs) Tick) w2 g).2
    ∧ started (exec sid evs w1 g).2
      = started (exec sid (replicate (ticks evs) Tick) w2 g).2
    ∧ heap (exec sid evs w1 g).1.1 !! gen_yak g
      = heap (exec sid (replicate (ticks evs) Tick) w2 g).1.1 !! gen_yak g.
Proof.
  induction evs as [|[|] evs IH]; intros w1 w2 g Hreg Hag.
  - done.
  - cbn [ticks replicate]. rewrite !exec_tick. cbn [fst snd].
    destruct (gen_step_agree w1 w2 g Hag) as (Hg & Ho & Hh).
    rewrite !emitted_app, !started_app, <- Ho, <- Hg.
    destruct (IH (gen_step w1 g).1.1 (gen_step w2 g).1.1 (gen_step w1 g).1.2)
      as (IHg & IHe & IHs & IHh).
    + by rewrite gen_step_registry, gen_step_yak.
    + by rewrite gen_step_yak.
    + rewrite gen_step_yak in IHh. by rewrite IHg, IHe, IHs, IHh.
  - cbn [ticks].
    destruct (agent_interrupt sid w1) as [[w1' resp]|e] eqn:Hint.
    + rewrite (exec_interrupt_ok _ _ _ _ _ _ Hint). cbn [fst snd emitted started].
      apply IH.
      * by destruct (agent_interrupt_world _ _ _ _ Hint) as [->|[l ->]].
      * rewrite <- Hag. unfold agent_interrupt, registry_getitem in Hint.
        destruct (agent_registry w1 !! sid) as [[l|]|]; simplify_eq/=; [|done].
        rewrite lookup_alter_ne; [done|]. congruence.
    + rewrite (exec_interrupt_raises _ _ _ _ _ Hint). by apply IH.
Qed.

(** X21.  An interrupt reaches a stream only through the object its
    session id is bound to at that moment.  Interrupt requests for a
    session id that is unknown, reserved or bound to another agent leave
    the stream exactly as if they had not been made: the same chunks, the
    same syntheses, the same end. *)
Theorem foreign_interrupts_are_ignored (sid : string) (evs : list Event)
    (w : World) (g : StreamGen) :
  agent_registry w !! sid ≠ Some (Some (gen_yak g)) →
  let r := exec sid evs w g in
  let r' := exec sid (replicate (ticks evs) Tick) w g in
  r.1.2 = r'.1.2
  ∧ emitted r.2 = emitted r'.2
  ∧ started r.2 = started r'.2
  ∧ status_at r.1.1 (gen_yak g) = status_at r'.1.1 (gen_yak g).
Proof.
  intros Hreg. simpl.
  destruct (exec_foreign sid evs w w g Hreg eq_refl) as (Hg & He & Hs & Hh).
  unfold status_at. by rewrite Hg, He, Hs, Hh.
Qed.

(** X22.  A stream keeps the agent it was started on.  Once [agent_create]
    has bound the session id to a new agent, interrupt requests for that
    session id no longer reach a stream that is still running on the
    agent created before. *)
Theorem recreated_session_outlives_interrupts (db : MongoHelper.DatabaseConfig)
    (config : SessionStart) (w : World) (g : StreamGen) (evs : list Event) :
  created (agent_create db config w).2 = true →
  is_Some (heap w !! gen_yak g) →
  let w' := (agent_create db config w).1 in
  let r := exec (cfg_session_id config) evs w' g in
  let r' := exec (cfg_session_id config) (replicate (ticks evs) Tick) w' g in
  heap w' !! gen_yak g = heap w !! gen_yak g
  ∧ r.1.2 = r'.1.2
  ∧ emitted r.2 = emitted r'.2
  ∧ started r.2 = started r'.2.
Proof.
  intros Hc [a Ha]. simpl.
  destruct (agent_create_success db config w Hc) as (l & a' & Hl & ->).
  assert (Hne : l ≠ gen_yak g) by congruence.
  split; [simpl; by rewrite lookup_insert_ne|].
  destruct (exec_foreign (cfg_session_id config) evs
              {| agent_registry :=
                   <[cfg_session_id config := Some l]> (agent_registry w);
                 heap := <[l := a']> (heap w) |}
              {| agent_registry :=
                   <[cfg_session_id config := Some l]> (agent_registry w);
                 heap := <[l := a']> (heap w) |} g)
    as (Hg & He & Hs & _); [|done|done].
  simpl. rewrite lookup_insert_eq. congruence.
Qed.

Lemma exec_finished_stays sid n w g :
  gen_pc g = Finished → exec sid (replicate n Tick) w g = (w, g, []).
Proof.
  intros Hpc. induction n as [|n IH]; [done|].
  change (replicate (S n) Tick) with (Tick :: replicate n Tick).
  rewrite exec_tick. unfold gen_step. rewrite Hpc. simpl. by rewrite IH.
Qed.

Lemma exec_delivers sid todo :
  ∀ n g w cs,
    gen_pc g = AtFor → gen_todo g = todo →
    status_at w (gen_yak g) = Some TALKING →
    chunks_of g todo = Returns cs →
    3 * length todo + 2 ≤ n →
    emitted (exec sid (replicate n Tick) w g).2 = cs
    ∧ started (exec sid (replicate n Tick) w g).2 = todo
    ∧ gen_pc (exec sid (replicate n Tick) w g).1.2 = Finished
    ∧ (exec sid (replicate n Tick) w g).1.1 = write_status (gen_yak g) IDLE w.
Proof.
  induction todo as [|p rest IH]; intros n g w cs Hpc Htodo Hst Hcs Hn.
  - destruct n as [|[|n]]; [simpl in Hn; lia..|].
    cbn [replicate].
    rewrite (exec_tick_eq _ _ _ _ w (with_pc AfterLoop g) [])
      by (unfold gen_step; by rewrite Hpc, Htodo).
    rewrite (exec_tick_eq _ _ _ _ (write_status (gen_yak g) IDLE w)
               (with_pc Finished (with_pc AfterLoop g)) []) by done.
    rewrite exec_finished_stays by done. simpl.
    injection Hcs as <-. done.
  - destruct n as [|[|[|n]]]; [simpl in Hn; lia..|].
    cbn [replicate].
    unfold chunks_of in Hcs.
    destruct (chunks_from_cons _ _ _ _ _ _ Hcs) as (c & cs' & Hc & Hcs' & ->).
    rewrite (exec_tick_eq _ _ _ _ _ _ _ (gen_step_pull w g p rest Hpc Htodo)).
    rewrite (exec_tick_eq _ _ _ _ w
               (with_pc AtYield
                  (count_call (with_pc (Synthesizing p) (with_todo rest g))))
               [Emit c]) by (apply (gen_step_emit _ _ p); [reflexivity|exact Hc]).
    rewrite (exec_tick_eq _ _ _ _ w
               (with_pc AtFor
                  (with_pc AtYield
                     (count_call (with_pc (Synthesizing p) (with_todo rest g)))))
               []) by (apply gen_step_continue; [reflexivity|exact Hst]).
    cbn [fst snd].
    destruct (IH n
                (with_pc AtFor
                   (with_pc AtYield
                      (count_call (with_pc (Synthesizing p) (with_todo rest g)))))
                w cs') as (IHe & IHs & IHp & IHw); try done.
    { simpl in Hn. lia. }
    cbn [fst snd app emitted started].
    rewrite IHe, IHs, IHp, IHw. done.
Qed.

(** X23.  A stream that is stepped alone, from the talk request that
    started it on, with nothing else served in between (no interrupt, no
    other talk request, no step of another stream on the same agent),
    delivers the whole answer: when the synthesis of every phrase
    succeeds, the chunks written are those of all the phrases, in order,
    the generator returns within three steps for each phrase and two
    more, and the only trace it leaves is the status IDLE on its
    agent. *)
Theorem lone_stream_delivers_all (message : ApiUserMessage)
    (phrases : list string) (w w' : World) (g : StreamGen)
    (cs : list Chunk) (n : nat) (sid : string) :
  talk_with_agent message phrases w = Returns (w', g)
  ∨ talk_with_avatar message phrases w = Returns (w', g) →
  chunks_of g phrases = Returns cs →
  3 * length phrases + 2 ≤ n →
  let r := exec sid (replicate n Tick) w' g in
  emitted r.2 = cs
  ∧ started r.2 = phrases
  ∧ gen_pc r.1.2 = Finished
  ∧ r.1.1 = write_status (gen_yak g) IDLE w'.
Proof.
  intros Htalk Hcs Hn. simpl.
  destruct (talk_started _ _ _ _ _ Htalk)
    as (l & yak & Hreg & Hl & -> & Hyak & Htodo & Hpc & Hcalls).
  apply exec_delivers; try done.
  rewrite Hyak. apply status_at_write_eq. by eexists.
Qed.

Lemma same_but_status_write w l0 st l :
  same_but_status w (write_status l0 st w) l.
Proof.
  unfold same_but_status, write_status. simpl.
  destruct (decide (l0 = l)) as [->|Hne].
  - rewrite lookup_alter_eq. destruct (heap w !! l) as [a|]; [|by left].
    right. by exists a, st.
  - left. by rewrite lookup_alter_ne.
Qed.

Lemma same_but_status_trans w1 w2 w3 l :
  same_but_status w1 w2 l → same_but_status w2 w3 l → same_but_status w1 w3 l.
Proof.
  unfold same_but_status.
  intros [H12|(a & st & Ha & H12)] [H23|(b & st' & Hb & H23)].
  - left. congruence.
  - right. exists b, st'. split; congruence.
  - right. exists a, st. split; congruence.
  - right. exists a, st'. split; [done|].
    rewrite H23. assert (b = set_status st a) as -> by congruence. done.
Qed.

Lemma agent_interrupt_cases sid w w1 resp :
  agent_interrupt sid w = Returns (w1, resp) →
  w1 = w ∨ ∃ l, agent_registry w !! sid = Some (Some l)
                ∧ w1 = write_status l IDLE w.
Proof.
  unfold agent_interrupt, registry_getitem. intros Hint.
  destruct (agent_registry w !! sid) as [[l|]|]; simplify_eq/=; eauto.
Qed.

Lemma exec_same_but_status sid evs l :
  ∀ w g, same_but_status w (exec sid evs w g).1.1 l.
Proof.
  induction evs as [|[|] evs IH]; intros w g.
  - by left.
  - rewrite exec_tick. cbn [fst snd].
    apply (same_but_status_trans _ (gen_step w g).1.1); [|apply IH].
    destruct (gen_step_world w g) as [->|[_ ->]];
      [by left|apply same_but_status_write].
  - destruct (agent_interrupt sid w) as [[w1 resp]|e] eqn:Hint.
    + rewrite (exec_interrupt_ok _ _ _ _ _ _ Hint). cbn [fst snd].
      apply (same_but_status_trans _ w1); [|apply IH].
      destruct (agent_interrupt_world _ _ _ _ Hint) as [->|[l0 ->]];
        [by left|apply same_but_status_write].
    + rewrite (exec_interrupt_raises _ _ _ _ _ Hint). apply IH.
Qed.

Lemma exec_others sid evs l :
  ∀ w g,
    l ≠ gen_yak g → agent_registry w !! sid ≠ Some (Some l) →
    heap (exec sid evs w g).1.1 !! l = heap w !! l.
Proof.
  induction evs as [|[|] evs IH]; intros w g Hyak Hreg.
  - done.
  - rewrite exec_tick. cbn [fst snd]. rewrite IH.
    + destruct (gen_step_world w g) as [->|[_ ->]]; [done|].
      simpl. by rewrite lookup_alter_ne.
    + by rewrite gen_step_yak.
    + by rewrite gen_step_registry.
  - destruct (agent_interrupt sid w) as [[w1 resp]|e] eqn:Hint.
    + rewrite (exec_interrupt_ok _ _ _ _ _ _ Hint). cbn [fst snd].
      destruct (agent_interrupt_cases _ _ _ _ Hint) as [->|(l0 & Hl0 & ->)];
        [by apply IH|].
      rewrite IH; [|done|done]. simpl. rewrite lookup_alter_ne; [done|].
      congruence.
    + rewrite (exec_interrupt_raises _ _ _ _ _ Hint). by apply IH.
Qed.

(** X24.  Whatever the schedule, a stream and the interrupts served on a
    session id change nothing but statuses: the registry keeps its
    entries, every agent keeps its voice, its business and its
    conversation, and an agent that is neither the stream's own nor the
    one the session id is bound to is left exactly as it was. *)
Theorem stream_changes_only_status (sid : string) (evs : list Event)
    (w : World) (g : StreamGen) (l : loc) :
  agent_registry (exec sid evs w g).1.1 = agent_registry w
  ∧ same_but_status w (exec sid evs w g).1.1 l
  ∧ (l ≠ gen_yak g → agent_registry w !! sid ≠ Some (Some l) →
     heap (exec sid evs w g).1.1 !! l = heap w !! l).
Proof.
  split; [apply exec_registry|]. split; [apply exec_same_but_status|].
  apply exec_others.
Qed.

(** *** The registry over the life of the service *)

Lemma sys_step_keeps op s sid l :
  (is_Some (agent_registry (world s) !! sid) →
   is_Some (agent_registry (world (sys_step op s)) !! sid))
  ∧ (is_Some (heap (world s) !! l) →
     is_Some (heap (world (sys_step op s)) !! l)).
Proof.
  destruct op; simpl.
  - split; [|done]. intros Hs. rewrite lookup_insert_is_Some.
    destruct (decide (uuid = sid)); auto.
  - destruct (created (agent_create db config (world s)).2) eqn:Hc.
    + destruct (agent_create_success db config (world s) Hc)
        as (l0 & a & Hl0 & ->). simpl.
      split; intros Hs; rewrite lookup_insert_is_Some.
      * destruct (decide (cfg_session_id config = sid)); auto.
      * destruct (decide (l0 = l)); auto.
    + by rewrite (agent_create_failure db config (world s) Hc).
  - unfold_api. repeat (case_match; simplify_eq/=); try done.
    split; [done|]. by rewrite lookup_alter_is_Some.
  - done.
  - done.
  - unfold_api. repeat (case_match; simplify_eq/=); try done.
    split; [done|]. by rewrite lookup_alter_is_Some.
  - unfold_api. repeat (case_match; simplify_eq/=); try done.
    split; [done|]. by rewrite lookup_alter_is_Some.
  - unfold_api. repeat (case_match; simplify_eq/=); try done.
    split; [done|]. by rewrite lookup_alter_is_Some.
  - destruct (streams s !! i) as [g|]; [|done].
    pose proof (gen_step_registry (world s) g) as Hr.
    pose proof (gen_step_allocated (world s) g l) as Hh.
    destruct (gen_step (world s) g) as [[w1 g1] o]. simpl in *.
    rewrite Hr. split; [done|]. apply Hh.
Qed.

(** X25.  Nothing is ever taken out of the registry: whatever requests are
    served and whatever steps the streams take, a session id that is
    reserved or created stays in the registry, and an agent that exists
    keeps existing. *)
Theorem sessions_are_never_removed (ops : list Op) (s : Sys) (sid : string)
    (l : loc) :
  (is_Some (agent_registry (world s) !! sid) →
   is_Some (agent_registry (world (run ops s)) !! sid))
  ∧ (is_Some (heap (world s) !! l) →
     is_Some (heap (world (run ops s)) !! l)).
Proof.
  revert s. induction ops as [|op ops IH]; intros s; [done|].
  rewrite run_cons.
  destruct (sys_step_keeps op s sid l) as [Hreg Hheap].
  destruct (IH (sys_step op s)) as [IHreg IHheap].
  split; auto.
Qed.

End Requests.

#[local] Existing Instance demo_runtime.

Lemma menu_ocr_answers_witness :
  ("success" = "error"
   ∧ (MongoHelper.update_menu_field db_pages "cafe-1" "p0" "Pies and peas").1
     = db_pages)
  ∨ ("success" = "success" ∧ MsgText "" = MsgText ""
     ∧ ∃ u response stdout,
         Returns () = Returns u
         ∧ Returns (mkOcrResponse true (BodyData (Some "Pies and peas")))
           = Returns response
         ∧ resp_ok response = true
         ∧ resp_body response = BodyData (Some stdout)
         ∧ (MongoHelper.update_menu_field db_pages "cafe-1" "p0"
              "Pies and peas").1
           = (MongoHelper.update_menu_field db_pages "cafe-1" "p0" stdout).1
         ∧ is_Some (MongoHelper.get_cafe db_pages "cafe-1" (Some "p0"))).
Proof.
  apply (menu_ocr_answers db_pages
           (MongoHelper.update_menu_field db_pages "cafe-1" "p0"
              "Pies and peas").1
           "cafe-1" "p0" (Returns ())
           (Returns (mkOcrResponse true (BodyData (Some "Pies and peas"))))
           "success" (MsgText "")).
  vm_compute. reflexivity.
Defined.

Lemma menus_collate_images_status_witness :
  ("erorr" = "success" ∧ MongoHelper.get_menu_list db_empty "cafe-1" true ≠ [])
  ∨ ("erorr" = "erorr" ∧ MongoHelper.get_menu_list db_empty "cafe-1" true = []
     ∧ db_empty = db_empty ∧ "" = "").
Proof.
  apply (menus_collate_images_status db_empty db_empty "cafe-1" grp "erorr"
           MongoHelper.no_business_msg "").
  vm_compute. reflexivity.
Defined.

Lemma get_last_response_registered_witness :
  get_last_response "s1" w_chatted = Returns (LastResp "Flat white?")
  ∧ get_last_response "s0" w_chatted = Returns (LastResp "").
Proof.
  split.
  - rewrite (get_last_response_registered "s1" w_chatted).
    + vm_compute. reflexivity.
    + vm_compute. by eexists.
  - vm_compute. reflexivity.
Defined.

Lemma foreign_interrupts_are_ignored_witness :
  let r := exec "s0" [Tick; Interrupt; Tick; Tick] w_talking (stream_of ["Hi"]) in
  let r' := exec "s0" (replicate (ticks [Tick; Interrupt; Tick; Tick]) Tick)
              w_talking (stream_of ["Hi"]) in
  r.1.2 = r'.1.2
  ∧ emitted r.2 = emitted r'.2
  ∧ started r.2 = started r'.2
  ∧ status_at r.1.1 (gen_yak (stream_of ["Hi"]))
    = status_at r'.1.1 (gen_yak (stream_of ["Hi"])).
Proof.
  apply (foreign_interrupts_are_ignored "s0" [Tick; Interrupt; Tick; Tick]
           w_talking (stream_of ["Hi"])).
  vm_compute. discriminate.
Defined.

Lemma recreated_session_outlives_interrupts_witness :
  let config := mkSessionStart "cafe-1" "m1" "s1" None true in
  let g := stream_of ["Hi"; "there"] in
  let evs := [Tick; Tick; Interrupt; Tick; Tick; Tick] in
  let w' := (agent_create db_two config w_talking).1 in
  let r := exec (cfg_session_id config) evs w' g in
  let r' := exec (cfg_session_id config) (replicate (ticks evs) Tick) w' g in
  heap w' !! gen_yak g = heap w_talking !! gen_yak g
  ∧ r.1.2 = r'.1.2
  ∧ emitted r.2 = emitted r'.2
  ∧ started r.2 = started r'.2.
Proof.
  apply (recreated_session_outlives_interrupts db_two
           (mkSessionStart "cafe-1" "m1" "s1" None true) w_talking
           (stream_of ["Hi"; "there"])
           [Tick; Tick; Interrupt; Tick; Tick; Tick]).
  - vm_compute. reflexivity.
  - vm_compute. by eexists.
Defined.

Lemma lone_stream_delivers_all_witness :
  let r := exec "s1" (replicate 8 Tick) w_talking (stream_of ["Hi"; "there"]) in
  emitted r.2 = [mkChunk "Hi" "Hi"; mkChunk "there" "there"]
  ∧ started r.2 = ["Hi"; "there"]
  ∧ gen_pc r.1.2 = Finished
  ∧ r.1.1 = write_status (gen_yak (stream_of ["Hi"; "there"])) IDLE w_talking.
Proof.
  apply (lone_stream_delivers_all hello ["Hi"; "there"] w0 w_talking
           (stream_of ["Hi"; "there"])
           [mkChunk "Hi" "Hi"; mkChunk "there" "there"] 8 "s1").
  - left. vm_compute. reflexivity.
  - vm_compute. reflexivity.
  - vm_compute. lia.
Defined.

End ChatExtra.
